(** * Checkers rules engine (cogs/games/checkers.py)

    A shallow embedding of the board, the precomputed move and capture
    tables, the legal-move generator with its forced-capture chain search,
    and the move applicator, followed by the properties proved about them.

    Conventions of the embedding.
    - A board cell is one of the five one-character strings the program
      ever stores: [' '], ['b'], ['w'], ['B'], ['W'].
    - Squares are Python ints, modelled as [Z]; a board is the list of its
      64 cells.
    - A Python generator is modelled by its trace: the list of the values
      it yields, in order, and how it ends (exhausted, or an exception).
      The generators of the program read the board and never write it, so
      the trace determines every use the program makes of them.
    - The recursion of [jump_helper] is bounded by a fuel argument; running
      out of fuel is an ending of its own, and it is proved not to occur. *)

From Stdlib Require Import ZArith String Ascii Bool List Lia.
Import ListNotations.
Open Scope Z_scope.

(** ** Pieces *)

Inductive piece : Type :=
| Empty      (* ' ' *)
| BK_PIECE   (* 'b' *)
| WH_PIECE   (* 'w' *)
| BK_KING    (* 'B' *)
| WH_KING.   (* 'W' *)

Definition piece_eqb (p q : piece) : bool :=
  match p, q with
  | Empty, Empty | BK_PIECE, BK_PIECE | WH_PIECE, WH_PIECE
  | BK_KING, BK_KING | WH_KING, WH_KING => true
  | _, _ => false
  end.

(** BLACK, WHITE = False, True *)
Definition BLACK : bool := false.
Definition WHITE : bool := true.

(** PIECES = 'bw', indexed by a colour. *)
Definition PIECES (colour : bool) : piece :=
  if colour then WH_PIECE else BK_PIECE.

(** str.isupper, str.lower and str.upper on the five cell values. *)
Definition _is_king (p : piece) : bool :=
  match p with
  | BK_KING | WH_KING => true
  | _ => false
  end.

Definition lower (p : piece) : piece :=
  match p with
  | BK_KING => BK_PIECE
  | WH_KING => WH_PIECE
  | _ => p
  end.

Definition upper (p : piece) : piece :=
  match p with
  | BK_PIECE => BK_KING
  | WH_PIECE => WH_KING
  | _ => p
  end.

(** ** Geometry *)

Fixpoint range_from (n : nat) (start step : Z) : list Z :=
  match n with
  | O => []
  | S n' => start :: range_from n' (start + step) step
  end.

(** Python's range(start, stop, step), for a step that is not zero. *)
Definition range (start stop step : Z) : list Z :=
  let len := if 0 <? step
             then (stop - start + step - 1) / step
             else (start - stop - step - 1) / (- step) in
  range_from (Z.to_nat len) start step.

Definition _get_checkers (start end_ direction : Z) : list (Z * Z) :=
  flat_map
    (fun y => flat_map
       (fun x => if (x + y) mod 2 =? 1 then [(x, y)] else [])
       (range 0 8 1))
    (range start (end_ + direction) direction).

Definition X : string := "abcdefgh".
Definition Y : string := "87654321".

Definition _to_i (x y : Z) : Z := y * 8 + x.

(** s[i] for an index inside the string; the program only indexes X and Y
    with the column and the row of a square of the board. *)
Definition char_at (s : string) (i : Z) : string :=
  match String.get (Z.to_nat i) s with
  | Some c => String c EmptyString
  | None => EmptyString
  end.

Definition _i_to_xy (i : Z) : string :=
  let y := i / 8 in
  let x := i mod 8 in
  (char_at X x ++ char_at Y y)%string.

(** str.index for a single character: None stands for ValueError. *)
Fixpoint str_index (c : ascii) (s : string) : option Z :=
  match s with
  | EmptyString => None
  | String d r =>
      if Ascii.eqb c d then Some 0
      else option_map Z.succ (str_index c r)
  end.

(** [x, y = xy] needs exactly two characters. *)
Definition _xy_to_i (xy : string) : option Z :=
  match xy with
  | String x (String y EmptyString) =>
      match str_index x X, str_index y Y with
      | Some xi, Some yi => Some (_to_i xi yi)
      | _, _ => None
      end
  | _ => None
  end.

Definition _in_range (x y : Z) : bool :=
  (0 <=? x) && (x <? 8) && (0 <=? y) && (y <? 8).

Definition _moves (x y dy : Z) : list Z :=
  flat_map
    (fun dx => if _in_range (x + dx) (y + dy)
               then [_to_i (x + dx) (y + dy)] else [])
    [-1; 1].

Definition _captures (x y dy : Z) : list (Z * Z) :=
  flat_map
    (fun dx =>
       if _in_range (x + dx) (y + dy) && _in_range (x + dx * 2) (y + dy * 2)
       then [(_to_i (x + dx) (y + dy), _to_i (x + dx * 2) (y + dy * 2))]
       else [])
    [-1; 1].

(** ** Lookup tables *)

(** A dict with int keys, as the list of its items. *)
Definition dict (V : Type) : Type := list (Z * V).

Fixpoint dict_get {V : Type} (k : Z) (d : dict V) : option V :=
  match d with
  | [] => None
  | (k', v) :: d' => if k =? k' then Some v else dict_get k d'
  end.

Definition dict_keys {V : Type} (d : dict V) : list Z := map fst d.

(** d.get(k, []) *)
Definition dict_get_default {V : Type} (k : Z) (d : dict (list V)) : list V :=
  match dict_get k d with
  | Some v => v
  | None => []
  end.

(** a.keys() | b.keys() *)
Definition keys_union {V : Type} (a b : dict V) : list Z :=
  dict_keys a ++
  filter (fun k => negb (existsb (Z.eqb k) (dict_keys a))) (dict_keys b).

Section MakeDict.
Context {V : Type} (f : Z -> Z -> Z -> list V).

Definition men_dict (start end_ direction dy : Z) : dict (list V) :=
  map (fun '(x, y) => (_to_i x y, f x y dy))
      (_get_checkers start end_ direction).

Definition bk_dict : dict (list V) := men_dict 0 8 1 1.
Definition wh_dict : dict (list V) := men_dict 8 0 (-1) (-1).

(** Kings can move anywhere *)
Definition king_dict : dict (list V) :=
  map (fun k => (k, dict_get_default k wh_dict ++ dict_get_default k bk_dict))
      (keys_union bk_dict wh_dict).

(** The outer dict is keyed by the four piece characters; [None] is the
    KeyError of a lookup with [' ']. *)
Definition _make_dict (p : piece) : option (dict (list V)) :=
  match p with
  | Empty => None
  | BK_PIECE => Some bk_dict
  | WH_PIECE => Some wh_dict
  | BK_KING | WH_KING => Some king_dict
  end.
End MakeDict.

Definition _MOVES : piece -> option (dict (list Z)) := _make_dict _moves.
Definition _CAPTURES : piece -> option (dict (list (Z * Z))) :=
  _make_dict _captures.

(** ** Generators as traces *)

Inductive exn : Type :=
| KeyError        (* a dict lookup with a missing key *)
| IllegalMove     (* ValueError('illegal move: ...') raised by Board.move *)
| BadCoordinate   (* ValueError while parsing a move text *)
| IndexError      (* indexing an empty list of squares *)
| FuelExhausted.  (* the bound of the model on the recursion depth *)

(** What a generator yields and how it stops: [None] is exhaustion. *)
Definition gen (A : Type) : Type := (list A * option exn)%type.

Definition yielded {A : Type} (g : gen A) : list A := fst g.
Definition ending {A : Type} (g : gen A) : option exn := snd g.

Definition gen_nil {A : Type} : gen A := ([], None).
Definition gen_yield {A : Type} (a : A) : gen A := ([a], None).
Definition gen_raise {A : Type} (e : exn) : gen A := ([], Some e).

(** Run [g], then [h] unless [g] raised. *)
Definition gen_seq {A : Type} (g h : gen A) : gen A :=
  match ending g with
  | None => (yielded g ++ yielded h, ending h)
  | Some e => g
  end.

(** for a in l: (run body a) *)
Fixpoint gen_for {A B : Type} (l : list A) (body : A -> gen B) : gen B :=
  match l with
  | [] => gen_nil
  | a :: l' => gen_seq (body a) (gen_for l' body)
  end.

Definition gen_map {A B : Type} (f : A -> B) (g : gen A) : gen B :=
  (map f (yielded g), ending g).

(** ** The board *)

Definition _STARTING_BOARD : list piece :=
  [ Empty; BK_PIECE; Empty; BK_PIECE; Empty; BK_PIECE; Empty; BK_PIECE;
    BK_PIECE; Empty; BK_PIECE; Empty; BK_PIECE; Empty; BK_PIECE; Empty;
    Empty; BK_PIECE; Empty; BK_PIECE; Empty; BK_PIECE; Empty; BK_PIECE;
    Empty; Empty; Empty; Empty; Empty; Empty; Empty; Empty;
    Empty; Empty; Empty; Empty; Empty; Empty; Empty; Empty;
    WH_PIECE; Empty; WH_PIECE; Empty; WH_PIECE; Empty; WH_PIECE; Empty;
    Empty; WH_PIECE; Empty; WH_PIECE; Empty; WH_PIECE; Empty; WH_PIECE;
    WH_PIECE; Empty; WH_PIECE; Empty; WH_PIECE; Empty; WH_PIECE; Empty ].

Record Board : Type := mkBoard {
  _board : list piece;
  _half_moves : Z;
  turn : bool
}.

(** Board.__init__ *)
Definition Board_init : Board :=
  {| _board := _STARTING_BOARD; _half_moves := 0; turn := WHITE |}.

(** board[i], for a square of the board. *)
Definition cell (board : list piece) (i : Z) : piece :=
  nth (Z.to_nat i) board Empty.

(** board[i] = v *)
Fixpoint list_set (board : list piece) (n : nat) (v : piece) : list piece :=
  match board, n with
  | [], _ => []
  | _ :: r, O => v :: r
  | c :: r, S n' => c :: list_set r n' v
  end.

Definition set_cell (board : list piece) (i : Z) (v : piece) : list piece :=
  list_set board (Z.to_nat i) v.

(** enumerate(board) *)
Fixpoint enumerate_from {A : Type} (i : Z) (l : list A) : list (Z * A) :=
  match l with
  | [] => []
  | a :: l' => (i, a) :: enumerate_from (i + 1) l'
  end.

Definition _find_all_pieces (self : Board) (colour : piece) : list Z :=
  flat_map (fun '(i, v) => if piece_eqb (lower v) colour then [i] else [])
           (enumerate_from 0 (_board self)).

(** The recursion depth that is always enough: every recursive call adds a
    square of the board to [captured]. *)
Definition depth_bound : nat := 65.

Section JumpsFrom.
Variable self : Board.
(** captures = _CAPTURES[board[square]], fixed for the whole search. *)
Variable captures : dict (list (Z * Z)).

Definition valid_jump (captured : list Z) (jump : Z * Z) : bool :=
  let '(jump_over, jump_end) := jump in
  piece_eqb (lower (cell (_board self) jump_over)) (PIECES (negb (turn self)))
  && negb (existsb (Z.eqb jump_over) captured)
  && piece_eqb (cell (_board self) jump_end) Empty.

(** not is_king and square >> 3 == 7 * self.turn *)
Definition stops_here (square : Z) : bool :=
  negb (_is_king (cell (_board self) square))
  && (Z.shiftr square 3 =? 7 * Z.b2z (turn self)).

Fixpoint jump_helper (fuel : nat) (square : Z) (captured : list Z)
  : gen (list Z) :=
  match fuel with
  | O => gen_raise FuelExhausted
  | S fuel' =>
      match dict_get square captures with
      | None => gen_raise KeyError
      | Some jumps =>
          gen_for jumps (fun jump =>
            if valid_jump captured jump then
              let '(jump_over, jump_end) := jump in
              if stops_here square then gen_yield [square; jump_end]
              else
                match jump_helper fuel' jump_end (jump_over :: captured) with
                | ([], None) => gen_yield [square; jump_end]
                | squares => gen_map (cons square) squares
                end
            else gen_nil)
      end
  end.
End JumpsFrom.

(** ''.join(l) *)
Definition join (l : list string) : string :=
  fold_right String.append EmptyString l.

(** ''.join(map(_i_to_xy, s)) *)
Definition render (s : list Z) : string := join (map _i_to_xy s).

(** jump_helper(square, set()) with the table of the piece on [square]. *)
Definition capture_chains (self : Board) (square : Z) : gen (list Z) :=
  match _CAPTURES (cell (_board self) square) with
  | None => gen_raise KeyError
  | Some captures => jump_helper self captures depth_bound square []
  end.

Definition jumps_from (self : Board) (square : Z) : gen string :=
  gen_map render (capture_chains self square).

Definition jumps (self : Board) : gen string :=
  let owner := PIECES (turn self) in
  gen_for (_find_all_pieces self owner) (jumps_from self).

Definition simple_moves (self : Board) : gen string :=
  let board := _board self in
  gen_for (_find_all_pieces self (PIECES (turn self))) (fun i =>
    match _MOVES (cell board i) with
    | None => gen_raise KeyError
    | Some tbl =>
        match dict_get i tbl with
        | None => gen_raise KeyError
        | Some ends =>
            gen_for ends (fun end_ =>
              if piece_eqb (cell board end_) Empty
              then gen_yield (_i_to_xy i ++ _i_to_xy end_)%string
              else gen_nil)
        end
    end).

Definition legal_moves (self : Board) : gen string :=
  match jumps self with
  | ([], None) => simple_moves self
  | js => js
  end.

(** next(self.legal_moves(), None) is None *)
Definition is_game_over (self : Board) : bool + exn :=
  match legal_moves self with
  | ([], None) => inl true
  | ([], Some e) => inr e
  | (_ :: _, _) => inl false
  end.

(** ** The move applicator *)

(** sliced(move, 2) *)
Fixpoint sliced2 (s : string) : list string :=
  match s with
  | EmptyString => []
  | String a EmptyString => [String a EmptyString]
  | String a (String b r) => String a (String b EmptyString) :: sliced2 r
  end.

(** [f(x) for x in l] where f may raise. *)
Fixpoint traverse {A B : Type} (f : A -> option B) (l : list A)
  : option (list B) :=
  match l with
  | [] => Some []
  | a :: l' =>
      match f a with
      | None => None
      | Some b => option_map (cons b) (traverse f l')
      end
  end.

Definition parse_squares (mv : string) : option (list Z) :=
  traverse _xy_to_i (sliced2 mv).

Fixpoint pairwise {A : Type} (l : list A) : list (A * A) :=
  match l with
  | a :: ((b :: _) as r) => (a, b) :: pairwise r
  | _ => []
  end.

(** One round of the capture loop of Board.move:
    [difference not in {18, 14}] skips the round. *)
Definition capture_step (board : list piece) (ba : Z * Z) : list piece :=
  let '(before, after) := ba in
  let difference := Z.abs (before - after) in
  if (difference =? 18) || (difference =? 14) then
    (* A two step rather than a one step means a capture. *)
    let square_between := Z.min before after + difference / 2 in
    set_cell board square_between Empty
  else board.

(** The test of that loop on its own: the round clears a square. *)
Definition is_capture (ba : Z * Z) : bool :=
  let '(before, after) := ba in
  (Z.abs (before - after) =? 18) || (Z.abs (before - after) =? 14).

(** The body of Board.move after the legality test. *)
Definition apply_squares (self : Board) (squares : list Z)
  : Board * option exn :=
  match squares with
  | [] => (self, Some IndexError)
  | first :: _ =>
      let board := _board self in
      let end_ := last squares first in
      let piece := cell board first in
      let piece :=
        if (Z.shiftr end_ 3 =? 7 * Z.b2z (negb (turn self)))
           && negb (_is_king piece)
        then upper piece (* New king *)
        else piece in
      let board := fold_left capture_step (pairwise squares) board in
      let board := set_cell board first Empty in
      let board := set_cell board end_ piece in
      ({| _board := board;
          _half_moves := _half_moves self + 1;
          turn := negb (turn self) |}, None)
  end.

(** move in self.legal_moves(): the generator is consumed until the move
    is found; an exception of the generator surfaces only if the move was
    not yielded before it. *)
Definition gen_contains (mv : string) (g : gen string) : bool + exn :=
  if existsb (String.eqb mv) (yielded g) then inl true
  else match ending g with
       | None => inl false
       | Some e => inr e
       end.

(** Board.move: the board object as the call leaves it, and the exception
    the call raised, if any. *)
Definition move (self : Board) (mv : string) : Board * option exn :=
  match gen_contains mv (legal_moves self) with
  | inr e => (self, Some e)
  | inl false => (self, Some IllegalMove)
  | inl true =>
      match parse_squares mv with
      | None => (self, Some BadCoordinate)
      | Some squares => apply_squares self squares
      end
  end.

(** ** Well-formed boards *)

(** (x + y) % 2 == 1 with y, x = divmod(i, 8): the squares that are keys
    of the tables. *)
Definition dark (i : Z) : bool := (i mod 8 + i / 8) mod 2 =? 1.

Definition on_board (i : Z) : bool := (0 <=? i) && (i <? 64).

Definition light_empty (board : list piece) : bool :=
  forallb (fun '(i, v) => dark i || piece_eqb v Empty)
          (enumerate_from 0 board).

(** The invariant of the data model: 64 cells, the light ones empty. *)
Definition wf_board (self : Board) : Prop :=
  length (_board self) = 64%nat /\ light_empty (_board self) = true.

(** The squares move() clears between consecutive squares of a chain. *)
Definition midpoint (ba : Z * Z) : Z :=
  let '(before, after) := ba in
  Z.min before after + Z.abs (before - after) / 2.

Definition captured_squares (c : list Z) : list Z :=
  map midpoint (pairwise c).

(** Board positions used in examples: the listed pieces on an otherwise
    empty board. *)
Definition place (l : list (Z * piece)) : list piece :=
  fold_left (fun b '(i, p) => set_cell b i p) l (repeat Empty 64).

(** ** Checks run on the tables *)

Definition has_key {V : Type} (k : Z) (d : dict V) : bool :=
  match dict_get k d with
  | Some _ => true
  | None => false
  end.

(** What every entry (over, end) of a capture table at key [k] satisfies. *)
Definition jump_ok (tbl : dict (list (Z * Z))) (k : Z) (j : Z * Z) : bool :=
  let '(o, e) := j in
  on_board o && dark o && on_board e && dark e && has_key e tbl
  && (midpoint (k, e) =? o)
  && ((Z.abs (k - e) =? 18) || (Z.abs (k - e) =? 14)).

Definition captures_ok (tbl : dict (list (Z * Z))) : bool :=
  forallb (fun '(k, jumps) => forallb (jump_ok tbl k) jumps) tbl.

Definition moves_ok (tbl : dict (list Z)) : bool :=
  forallb (fun '(k, ends) =>
             forallb (fun e => on_board e && dark e && negb (is_capture (k, e)))
                     ends) tbl.

(** Every dark square of the board is a key. *)
Definition keys_ok {V : Type} (tbl : dict V) : bool :=
  forallb (fun i => negb (dark i) || has_key i tbl) (range 0 64 1).

(** A step of the move table and a landing of the capture table from the
    same square never coincide. *)
Definition steps_apart (mv : dict (list Z)) (cp : dict (list (Z * Z))) : bool :=
  forallb (fun '(k, jumps) =>
             forallb (fun '(o, e) =>
                        negb (existsb (Z.eqb e) (dict_get_default k mv)))
                     jumps) cp.

(** A man has no capture entry on the row where it is crowned. *)
Definition crown_row_empty (colour : bool) (tbl : dict (list (Z * Z))) : bool :=
  forallb (fun '(k, jumps) =>
             negb (Z.shiftr k 3 =? 7 * Z.b2z (negb colour))
             || match jumps with [] => true | _ => false end) tbl.

(** ** The chains of jump_helper, as a relation *)

Section ChainRelation.
Variable self : Board.
Variable captures : dict (list (Z * Z)).

(** No entry of the table at [square] passes the three tests of the loop. *)
Definition no_jump (square : Z) (captured : list Z) : Prop :=
  forall jumps j,
    dict_get square captures = Some jumps -> In j jumps ->
    valid_jump self captured j = false.

(** [chain_from square captured c] holds of every [c] that the call
    jump_helper(square, captured) yields ([jump_helper_sound]). One
    constructor per [yield] of the source. *)
Inductive chain_from : Z -> list Z -> list Z -> Prop :=
| chain_cut square captured jumps o e :
    dict_get square captures = Some jumps -> In (o, e) jumps ->
    valid_jump self captured (o, e) = true ->
    stops_here self square = true ->
    chain_from square captured [square; e]
| chain_end square captured jumps o e :
    dict_get square captures = Some jumps -> In (o, e) jumps ->
    valid_jump self captured (o, e) = true ->
    stops_here self square = false ->
    no_jump e (o :: captured) ->
    chain_from square captured [square; e]
| chain_step square captured jumps o e c :
    dict_get square captures = Some jumps -> In (o, e) jumps ->
    valid_jump self captured (o, e) = true ->
    stops_here self square = false ->
    chain_from e (o :: captured) c ->
    chain_from square captured (square :: c).
End ChainRelation.

(** ** Notions used in the statements *)

(** The squares of the board not recorded as captured: every recursive
    call removes one of them. *)
Definition free_squares (captured : list Z) : list Z :=
  filter (fun i => negb (existsb (Z.eqb i) captured)) (range 0 64 1).

(** ** Example positions *)

(** White to move: a white king on c3, black men on d2, f2 and f4. *)
Definition king_position : Board :=
  {| _board := place [(42, WH_KING); (51, BK_PIECE); (53, BK_PIECE);
                      (37, BK_PIECE)];
     _half_moves := 10; turn := WHITE |}.

(** White to move: a white man on b6, black men on c7 and e7. *)
Definition crowning_position : Board :=
  {| _board := place [(17, WH_PIECE); (10, BK_PIECE); (12, BK_PIECE)];
     _half_moves := 20; turn := WHITE |}.

(** White to move: a white man on a1, black men on b2 and d4. *)
Definition home_row_position : Board :=
  {| _board := place [(56, WH_PIECE); (49, BK_PIECE); (35, BK_PIECE)];
     _half_moves := 20; turn := WHITE |}.

(** White to move: a white man on b2, black men on c3 and e5. *)
Definition double_jump_position : Board :=
  {| _board := place [(49, WH_PIECE); (42, BK_PIECE); (28, BK_PIECE)];
     _half_moves := 6; turn := WHITE |}.

(** ** Notions about move texts and legal moves *)

(** The text of a square of the board has two characters and parses back
    to the square. *)
Definition xy_ok (i : Z) : bool :=
  match _i_to_xy i with
  | String a (String b EmptyString) =>
      match _xy_to_i (String a (String b EmptyString)) with
      | Some k => k =? i
      | None => false
      end
  | _ => false
  end.

(** A capture chain of a piece of the side to move, as a text. *)
Definition capture_move (self : Board) (mv : string) : Prop :=
  exists square c,
    In square (_find_all_pieces self (PIECES (turn self)))
    /\ In c (yielded (capture_chains self square))
    /\ mv = render c.

(** One step of the move table from a square of the board, as a text. *)
Definition simple_step (self : Board) (mv : string) : Prop :=
  exists i tbl ends end_,
    0 <= i < 64
    /\ _MOVES (cell (_board self) i) = Some tbl
    /\ dict_get i tbl = Some ends
    /\ In end_ ends
    /\ mv = (_i_to_xy i ++ _i_to_xy end_)%string.

(** Some piece of the side to move has a table entry over an opponent
    piece onto an empty square. *)
Definition capture_available (self : Board) : Prop :=
  exists square captures jumps jump_over jump_end,
    In square (_find_all_pieces self (PIECES (turn self)))
    /\ _CAPTURES (cell (_board self) square) = Some captures
    /\ dict_get square captures = Some jumps
    /\ In (jump_over, jump_end) jumps
    /\ lower (cell (_board self) jump_over) = PIECES (negb (turn self))
    /\ cell (_board self) jump_end = Empty.

(** The squares of a legal move: an origin on the board, then one or more
    dark squares of the board. *)
Definition legal_squares (squares : list Z) : Prop :=
  exists first rest,
    squares = first :: rest /\ rest <> []
    /\ on_board first = true
    /\ Forall (fun i => on_board i = true /\ dark i = true) rest.

(** Every round of the capture loop of Board.move that clears a square
    clears a dark one. *)
Definition clears_dark (squares : list Z) : Prop :=
  Forall (fun ba => is_capture ba = true -> dark (midpoint ba) = true)
         (pairwise squares).

(** Only dark squares are occupied, read cell by cell. *)
Definition light_ok (board : list piece) : Prop :=
  forall j, 0 <= j -> cell board j <> Empty -> dark j = true.

(** ** Further notions: geometry of the tables *)

(** dy of the entries of a piece's tables: +1 for a black man, -1 for a
    white man, either for a king. *)
Definition dir_ok (p : piece) (dr : Z) : bool :=
  match p with
  | Empty => false
  | BK_PIECE => dr =? 1
  | WH_PIECE => dr =? -1
  | BK_KING | WH_KING => (dr =? 1) || (dr =? -1)
  end.

(** [e] is on the board, one column aside of [k] and one row from it in a
    direction of [p]; rows and columns as divmod(i, 8) gives them. *)
Definition step_shape (p : piece) (k e : Z) : bool :=
  on_board e
  && (Z.abs (e mod 8 - k mod 8) =? 1)
  && dir_ok p (e / 8 - k / 8).

Definition mem_z (x : Z) (l : list Z) : bool := existsb (Z.eqb x) l.

Definition mem_zz (x : Z * Z) (l : list (Z * Z)) : bool :=
  existsb (fun y => (fst x =? fst y) && (snd x =? snd y)) l.

(** The entries of a move table are exactly the squares of [step_shape]. *)
Definition moves_shape_check (p : piece) (tbl : dict (list Z)) : bool :=
  forallb (fun '(k, ends) =>
             forallb (step_shape p k) ends
             && forallb (fun e => negb (step_shape p k e) || mem_z e ends)
                        (range 0 64 1)) tbl.

(** The entries of a capture table are exactly the pairs of two steps of
    the move table in a straight line. *)
Definition captures_shape_check (mv : dict (list Z))
           (cp : dict (list (Z * Z))) : bool :=
  forallb (fun '(k, jumps) =>
             forallb (fun '(o, e) =>
                        mem_z o (dict_get_default k mv)
                        && mem_z e (dict_get_default o mv)
                        && (e - o =? o - k)) jumps
             && forallb (fun o =>
                           forallb (fun e => negb (e - o =? o - k)
                                             || mem_zz (o, e) jumps)
                                   (dict_get_default o mv))
                        (dict_get_default k mv)) cp
  && forallb (fun '(k, ends) => has_key k cp) mv.

(** The keys of a table: the dark squares of rows 0 to 8. *)
Definition keys_check {V : Type} (tbl : dict V) : bool :=
  forallb (fun k => (0 <=? k) && (k <? 72) && dark k) (dict_keys tbl)
  && forallb (fun k => negb (dark k) || has_key k tbl) (range 0 72 1).

(** Steps of [a] from squares of the board, read backwards, are steps
    of [b]. *)
Definition mirror_check (a b : dict (list Z)) : bool :=
  forallb (fun '(k, ends) =>
             negb (on_board k)
             || forallb (fun e => mem_z k (dict_get_default e b)) ends) a.

(** ** Further notions: moves on a board *)

(** The squares that the capture loop of Board.move clears for a list of
    squares. *)
Definition cleared_squares (squares : list Z) : list Z :=
  map midpoint (filter is_capture (pairwise squares)).

(** [mv] is the text of a step of a piece of the side to move onto an
    empty square. *)
Definition step_available (self : Board) (mv : string) : Prop :=
  exists i tbl ends end_,
    In i (_find_all_pieces self (PIECES (turn self)))
    /\ _MOVES (cell (_board self) i) = Some tbl
    /\ dict_get i tbl = Some ends
    /\ In end_ ends
    /\ cell (_board self) end_ = Empty
    /\ mv = (_i_to_xy i ++ _i_to_xy end_)%string.

(** The piece that Board.move writes to the last square [end_]: a man
    arriving on the far row is crowned. *)
Definition crowned (self : Board) (end_ : Z) (p : piece) : piece :=
  if (Z.shiftr end_ 3 =? 7 * Z.b2z (negb (turn self))) && negb (_is_king p)
  then upper p else p.

(** board[o] = ' ' for each o of a list, in order. *)
Definition clear_all (os : list Z) (board : list piece) : list piece :=
  fold_left (fun b o => set_cell b o Empty) os board.

Definition count_if (p : piece -> bool) (l : list piece) : nat :=
  length (filter p l).

Definition of_colour (colour : piece) (v : piece) : bool :=
  piece_eqb (lower v) colour.

(** [reached n self]: [self] is what [n] calls of Board.move that raised
    nothing have made of a new board. *)
Inductive reached : nat -> Board -> Prop :=
| reached_init : reached 0 Board_init
| reached_move n self mv self' :
    reached n self -> move self mv = (self', None) ->
    reached (S n) self'.

(** ** Board._tiles *)

(** The values of Board.TILES, by the names the source gives them. *)
Inductive glyph : Type :=
| BLACK_LARGE_SQUARE
| WHITE_LARGE_SQUARE
| LARGE_RED_CIRCLE
| LARGE_BLUE_CIRCLE
| HEAVY_BLACK_HEART
| BLUE_HEART.

(** Board.TILES: keyed by the two colours (BLACK, WHITE = False, True) and
    by the four piece characters; [None] is the KeyError of another key. *)
Definition TILES (key : bool + piece) : option glyph :=
  match key with
  | inl false => Some BLACK_LARGE_SQUARE
  | inl true => Some WHITE_LARGE_SQUARE
  | inr BK_PIECE => Some LARGE_RED_CIRCLE
  | inr WH_PIECE => Some LARGE_BLUE_CIRCLE
  | inr BK_KING => Some HEAVY_BLACK_HEART
  | inr WH_KING => Some BLUE_HEART
  | inr Empty => None
  end.

(** key = not sum(divmod(i, 8)) % 2 if char == ' ' else char *)
Definition tile_key (i : Z) (char : piece) : bool + piece :=
  if piece_eqb char Empty
  then inl ((i / 8 + i mod 8) mod 2 =? 0)
  else inr char.

Definition _tiles (self : Board) : gen glyph :=
  gen_for (enumerate_from 0 (_board self)) (fun '(i, char) =>
    match TILES (tile_key i char) with
    | Some g => gen_yield g
    | None => gen_raise KeyError
    end).

(** The glyph shown for a cell. *)
Definition glyph_of (ic : Z * piece) : glyph :=
  match TILES (tile_key (fst ic) (snd ic)) with
  | Some g => g
  | None => BLACK_LARGE_SQUARE
  end.

(** ** Further checks run on the tables *)

Fixpoint nodup_z (l : list Z) : bool :=
  match l with
  | [] => true
  | a :: r => negb (mem_z a r) && nodup_z r
  end.

(** No two entries of a key lead to the same square. *)
Definition ends_distinct (mv : dict (list Z)) : bool :=
  forallb (fun '(k, ends) => nodup_z ends) mv.

Definition landings_distinct (cp : dict (list (Z * Z))) : bool :=
  forallb (fun '(k, jumps) => nodup_z (map snd jumps)) cp.

(** The jumps of a man of [colour] go two rows towards the far row. *)
Definition forward_check (colour : bool) (cp : dict (list (Z * Z))) : bool :=
  forallb (fun '(k, jumps) =>
             forallb (fun '(o, e) =>
                        e / 8 - k / 8 =? (if colour then -2 else 2)) jumps)
          cp.

(** From one row to the next towards the far row of the side of
    [colour]. *)
Definition forward (colour : bool) (ab : Z * Z) : Prop :=
  if colour then snd ab / 8 < fst ab / 8 else fst ab / 8 < snd ab / 8.

(** The first and the second square of a move text. *)
Definition first_square (mv : string) : option Z :=
  match parse_squares mv with
  | Some (s :: _) => Some s
  | _ => None
  end.

Definition second_square (mv : string) : option Z :=
  match parse_squares mv with
  | Some (_ :: e :: _) => Some e
  | _ => None
  end.

(** * Proofs *)

(** ** Facts about the tables, checked on the tables themselves *)

Lemma dict_get_In {V : Type} (k : Z) (d : dict V) (v : V) :
  dict_get k d = Some v -> In (k, v) d.
Proof.
  induction d as [|[k' v'] d IH]; simpl; [discriminate|].
  destruct (Z.eqb_spec k k') as [->|_].
  - intros [= ->]. now left.
  - intros H. right. now apply IH.
Qed.

Lemma all_captures_ok (p : piece) (tbl : dict (list (Z * Z))) :
  _CAPTURES p = Some tbl -> captures_ok tbl = true.
Proof.
  destruct p; simpl; intros [= <-]; vm_compute; reflexivity.
Qed.

Lemma all_captures_keys (p : piece) (tbl : dict (list (Z * Z))) :
  _CAPTURES p = Some tbl -> keys_ok tbl = true.
Proof.
  destruct p; simpl; intros [= <-]; vm_compute; reflexivity.
Qed.

Lemma all_moves_ok (p : piece) (tbl : dict (list Z)) :
  _MOVES p = Some tbl -> moves_ok tbl = true /\ keys_ok tbl = true.
Proof.
  destruct p; simpl; intros [= <-]; vm_compute; split; reflexivity.
Qed.

Lemma all_steps_apart (p : piece) mv cp :
  _MOVES p = Some mv -> _CAPTURES p = Some cp -> steps_apart mv cp = true.
Proof.
  destruct p; simpl; intros [= <-] [= <-]; vm_compute; reflexivity.
Qed.

Lemma men_crown_row_empty (colour : bool) tbl :
  _CAPTURES (PIECES colour) = Some tbl -> crown_row_empty colour tbl = true.
Proof.
  destruct colour; simpl; intros [= <-]; vm_compute; reflexivity.
Qed.

Lemma jump_facts tbl k jumps j :
  captures_ok tbl = true -> dict_get k tbl = Some jumps -> In j jumps ->
  jump_ok tbl k j = true.
Proof.
  intros Hok Hget Hin.
  apply dict_get_In in Hget.
  unfold captures_ok in Hok. rewrite forallb_forall in Hok.
  specialize (Hok _ Hget). simpl in Hok.
  rewrite forallb_forall in Hok. now apply Hok.
Qed.

Lemma on_board_range (i : Z) : on_board i = true <-> 0 <= i < 64.
Proof. unfold on_board. rewrite andb_true_iff, Z.leb_le, Z.ltb_lt. tauto. Qed.

Lemma In_range_from n start i :
  In i (range_from n start 1) <-> start <= i < start + Z.of_nat n.
Proof.
  revert start. induction n as [|n IH]; intros start.
  - simpl. lia.
  - cbn [range_from In]. rewrite IH. lia.
Qed.

Lemma In_squares (i : Z) : In i (range 0 64 1) <-> 0 <= i < 64.
Proof.
  replace (range 0 64 1) with (range_from 64 0 1) by reflexivity.
  rewrite In_range_from. lia.
Qed.

Lemma dark_has_key {V : Type} (tbl : dict V) (i : Z) :
  keys_ok tbl = true -> 0 <= i < 64 -> dark i = true -> has_key i tbl = true.
Proof.
  intros Hk Hi Hd. unfold keys_ok in Hk. rewrite forallb_forall in Hk.
  specialize (Hk i (proj2 (In_squares i) Hi)).
  rewrite Hd in Hk. exact Hk.
Qed.

(** ** Facts about traces *)

Lemma gen_for_yielded {A B : Type} (l : list A) (body : A -> gen B) (x : B) :
  In x (yielded (gen_for l body)) ->
  exists a, In a l /\ In x (yielded (body a)).
Proof.
  induction l as [|a l IH]; simpl; [tauto|].
  unfold gen_seq. destruct (ending (body a)) eqn:E.
  - intros H. exists a. auto.
  - cbn [yielded fst]. rewrite in_app_iff. intros [H|H].
    + exists a. auto.
    + destruct (IH H) as (a' & Ha' & Hx). exists a'. auto.
Qed.

Lemma gen_for_silent {A B : Type} (l : list A) (body : A -> gen B) :
  gen_for l body = ([], None) ->
  forall a, In a l -> body a = ([], None).
Proof.
  induction l as [|a l IH]; simpl; [tauto|].
  unfold gen_seq. destruct (body a) as [ys [e|]] eqn:E; cbn [ending yielded fst snd].
  - discriminate.
  - destruct (gen_for l body) as [zs en] eqn:F. cbn [fst snd].
    intros [= Happ ->]. apply app_eq_nil in Happ as [-> ->].
    intros a' [<-|Ha']; [exact E|]. now apply IH.
Qed.

Lemma gen_for_ending {A B : Type} (l : list A) (body : A -> gen B) :
  (forall a, In a l -> ending (body a) = None) ->
  ending (gen_for l body) = None.
Proof.
  induction l as [|a l IH]; intros H; simpl; [reflexivity|].
  unfold gen_seq. rewrite (H a (or_introl eq_refl)). cbn [ending snd].
  apply IH. intros a' Ha'. apply H. now right.
Qed.

Lemma gen_for_complete {A B : Type} (l : list A) (body : A -> gen B) a x :
  ending (gen_for l body) = None ->
  In a l -> In x (yielded (body a)) -> In x (yielded (gen_for l body)).
Proof.
  induction l as [|a' l IH]; simpl; [tauto|].
  unfold gen_seq. destruct (ending (body a')) eqn:E.
  - rewrite E. discriminate.
  - cbn [ending yielded fst snd]. intros Hend [->|Ha] Hx; rewrite in_app_iff.
    + now left.
    + right. now apply IH.
Qed.

Lemma gen_map_yielded {A B : Type} (f : A -> B) (g : gen A) (y : B) :
  In y (yielded (gen_map f g)) <-> exists x, In x (yielded g) /\ y = f x.
Proof.
  unfold gen_map. cbn [yielded fst]. rewrite in_map_iff.
  split; intros (x & H1 & H2); exists x; auto.
Qed.

(** ** The relation covers what jump_helper yields *)

Section ChainFacts.
Variable self : Board.
Variable captures : dict (list (Z * Z)).

Lemma jump_helper_silent fuel square captured :
  jump_helper self captures fuel square captured = ([], None) ->
  no_jump self captures square captured.
Proof.
  destruct fuel as [|fuel]; cbn [jump_helper]; [discriminate|].
  destruct (dict_get square captures) as [jumps|] eqn:Hget; [|discriminate].
  intros Hfor jumps' j Hg' Hin. rewrite Hget in Hg'. injection Hg' as <-.
  pose proof (gen_for_silent _ _ Hfor j Hin) as Hj. cbv beta in Hj.
  destruct (valid_jump self captured j); [|reflexivity].
  exfalso. destruct j as [o e].
  destruct (stops_here self square); [discriminate|].
  destruct (jump_helper self captures fuel e (o :: captured))
    as [[|x l] [ex|]]; discriminate.
Qed.

Lemma jump_helper_sound fuel :
  forall square captured c,
    In c (yielded (jump_helper self captures fuel square captured)) ->
    chain_from self captures square captured c.
Proof.
  induction fuel as [|fuel IH]; intros square captured c;
    cbn [jump_helper]; [intros []|].
  destruct (dict_get square captures) as [jumps|] eqn:Hget; [|intros []].
  intros Hin. apply gen_for_yielded in Hin as ([o e] & Hj & Hc).
  destruct (valid_jump self captured (o, e)) eqn:Hv; [|destruct Hc].
  destruct (stops_here self square) eqn:Hs.
  - destruct Hc as [<-|[]]. eapply chain_cut; eauto.
  - destruct (jump_helper self captures fuel e (o :: captured))
      as [ys en] eqn:Hsub.
    assert (Hsound : forall c', In c' ys -> chain_from self captures e (o :: captured) c').
    { intros c' Hc'. apply IH. rewrite Hsub. exact Hc'. }
    destruct ys as [|y ys].
    + destruct en as [ex|]; [destruct Hc|].
      destruct Hc as [<-|[]].
      eapply chain_end; eauto. eapply jump_helper_silent; eauto.
    + apply gen_map_yielded in Hc as (c' & Hc' & ->).
      eapply chain_step; eauto.
Qed.

Lemma chain_head square captured c :
  chain_from self captures square captured c ->
  exists jumps o e rest,
    c = square :: e :: rest /\ dict_get square captures = Some jumps
    /\ In (o, e) jumps /\ valid_jump self captured (o, e) = true.
Proof.
  intros H. destruct H as [sq capt jumps o e Hg Hi Hv Hs
                          |sq capt jumps o e Hg Hi Hv Hs Hn
                          |sq capt jumps o e c Hg Hi Hv Hs Hc].
  - exists jumps, o, e, []. auto.
  - exists jumps, o, e, []. auto.
  - exists jumps, o, e. inversion Hc; subst; eexists; eauto.
Qed.

(** The first jump decides everything when the test of line 146 holds at
    the origin. *)
Lemma chain_cut_length square captured c :
  chain_from self captures square captured c -> stops_here self square = true ->
  length c = 2%nat.
Proof.
  intros H Hs. inversion H; subst; try reflexivity; congruence.
Qed.

Lemma valid_jump_not_captured captured o e :
  valid_jump self captured (o, e) = true -> ~ In o captured.
Proof.
  unfold valid_jump. rewrite !andb_true_iff, negb_true_iff.
  intros [[_ Hn] _] Hin.
  assert (existsb (Z.eqb o) captured = true) as Hex.
  { apply existsb_exists. exists o. split; [exact Hin|apply Z.eqb_refl]. }
  congruence.
Qed.

Lemma valid_jump_ext l l' j :
  (forall x, In x l <-> In x l') ->
  valid_jump self l j = valid_jump self l' j.
Proof.
  intros Hext. destruct j as [o e]. unfold valid_jump.
  assert (existsb (Z.eqb o) l = existsb (Z.eqb o) l') as ->; [|reflexivity].
  apply eq_true_iff_eq. rewrite !existsb_exists.
  split; intros (x & Hx & Hox); exists x; (split; [apply Hext, Hx|exact Hox]).
Qed.

Lemma no_jump_ext square l l' :
  (forall x, In x l <-> In x l') -> no_jump self captures square l -> no_jump self captures square l'.
Proof.
  intros Hext Hn jumps j Hg Hi.
  rewrite <- (valid_jump_ext l l' j Hext). eapply Hn; eauto.
Qed.

Hypothesis captures_checked : captures_ok captures = true.

Lemma chain_midpoint square jumps o e :
  dict_get square captures = Some jumps -> In (o, e) jumps ->
  midpoint (square, e) = o.
Proof.
  intros Hg Hi.
  pose proof (jump_facts _ _ _ _ captures_checked Hg Hi) as Hok.
  unfold jump_ok in Hok. rewrite !andb_true_iff in Hok.
  destruct Hok as [[_ Hm] _]. now apply Z.eqb_eq in Hm.
Qed.

Lemma captured_squares_cons square e rest :
  captured_squares (square :: e :: rest)
  = midpoint (square, e) :: captured_squares (e :: rest).
Proof. reflexivity. Qed.

(** No square is jumped over twice, and none that an enclosing call had
    already recorded. *)
Lemma chain_captured square captured c :
  chain_from self captures square captured c ->
  NoDup (captured_squares c)
  /\ forall x, In x (captured_squares c) -> ~ In x captured.
Proof.
  induction 1 as [sq capt jumps o e Hg Hi Hv Hs
                 |sq capt jumps o e Hg Hi Hv Hs Hn
                 |sq capt jumps o e c Hg Hi Hv Hs Hc IH].
  1,2: unfold captured_squares; cbn [pairwise map];
       rewrite (chain_midpoint _ _ _ _ Hg Hi); split;
       [ constructor; [intros []|constructor]
       | intros x [<-|[]]; eapply valid_jump_not_captured; eauto ].
  destruct (chain_head _ _ _ Hc) as (jumps' & o' & e' & rest & -> & _).
  rewrite captured_squares_cons, (chain_midpoint _ _ _ _ Hg Hi).
  destruct IH as [IHnd IHnot]. split.
  - constructor; [|exact IHnd].
    intros Ho. apply (IHnot o Ho). now left.
  - intros x [<-|Hx].
    + eapply valid_jump_not_captured; eauto.
    + intros Hcap. apply (IHnot x Hx). now right.
Qed.

(** A chain ends with a jump cut by the test of line 146, or on a square
    from which no entry of the table is a valid jump any more. *)
Lemma chain_maximal square captured c :
  chain_from self captures square captured c ->
  forall pre d e,
    c = pre ++ [d; e] -> stops_here self d = false ->
    no_jump self captures e (rev (captured_squares c) ++ captured).
Proof.
  induction 1 as [sq capt jumps o e Hg Hi Hv Hs
                 |sq capt jumps o e Hg Hi Hv Hs Hn
                 |sq capt jumps o e c Hg Hi Hv Hs Hc IH];
    intros pre d e' Heq Hd.
  - destruct pre as [|p [|q [|r pre]]]; try discriminate Heq.
    injection Heq as <- <-. congruence.
  - destruct pre as [|p [|q [|r pre]]]; try discriminate Heq.
    injection Heq as <- <-.
    unfold captured_squares. cbn [pairwise map rev app].
    rewrite (chain_midpoint _ _ _ _ Hg Hi). exact Hn.
  - destruct (chain_head _ _ _ Hc) as (jumps' & o' & e1 & rest & -> & _).
    destruct pre as [|p pre].
    + injection Heq as _ _ Heq. discriminate Heq.
    + injection Heq as <- Heq.
      rewrite captured_squares_cons, (chain_midpoint _ _ _ _ Hg Hi).
      cbn [rev]. rewrite <- app_assoc. cbn [app].
      eapply IH; eauto.
Qed.

Lemma chain_squares square captured c :
  chain_from self captures square captured c ->
  Forall (fun i => on_board i = true /\ dark i = true) (tl c).
Proof.
  assert (Hland : forall sq jumps o e,
             dict_get sq captures = Some jumps -> In (o, e) jumps ->
             on_board e = true /\ dark e = true).
  { intros sq jumps o e Hg Hi.
    pose proof (jump_facts _ _ _ _ captures_checked Hg Hi) as Hok.
    unfold jump_ok in Hok. rewrite !andb_true_iff in Hok. tauto. }
  induction 1 as [sq capt jumps o e Hg Hi Hv Hs
                 |sq capt jumps o e Hg Hi Hv Hs Hn
                 |sq capt jumps o e c Hg Hi Hv Hs Hc IH]; cbn [tl].
  1,2: constructor; [eapply Hland; eauto|constructor].
  destruct (chain_head _ _ _ Hc) as (jumps' & o' & e1 & rest & -> & _).
  cbn [tl] in IH. constructor; [eapply Hland; eauto|exact IH].
Qed.
End ChainFacts.

(** ** The recursion of jump_helper ends *)

Lemma filter_length_le (p q : Z -> bool) (l : list Z) :
  (forall i, q i = true -> p i = true) ->
  (length (filter q l) <= length (filter p l))%nat.
Proof.
  intros Hqp. induction l as [|a l IH]; simpl; [lia|].
  destruct (q a) eqn:Hq.
  - rewrite (Hqp a Hq). simpl. lia.
  - destruct (p a); simpl; lia.
Qed.

Lemma filter_length_lt (p q : Z -> bool) (l : list Z) (x : Z) :
  (forall i, q i = true -> p i = true) ->
  In x l -> p x = true -> q x = false ->
  (length (filter q l) < length (filter p l))%nat.
Proof.
  intros Hqp Hin Hp Hq. induction l as [|a l IH]; [destruct Hin|].
  simpl. destruct Hin as [->|Hin].
  - rewrite Hp, Hq. simpl.
    pose proof (filter_length_le p q l Hqp). lia.
  - specialize (IH Hin). destruct (q a) eqn:Hqa.
    + rewrite (Hqp a Hqa). simpl. lia.
    + destruct (p a); simpl; lia.
Qed.

Lemma free_squares_shrink (captured : list Z) (o : Z) :
  0 <= o < 64 -> ~ In o captured ->
  (length (free_squares (o :: captured)) < length (free_squares captured))%nat.
Proof.
  intros Ho Hnot. unfold free_squares.
  apply filter_length_lt with (x := o).
  - intros i. cbn [existsb]. rewrite negb_orb, andb_true_iff. tauto.
  - now apply In_squares.
  - apply negb_true_iff. destruct (existsb (Z.eqb o) captured) eqn:E; [|reflexivity].
    apply existsb_exists in E as (x & Hx & Hox).
    apply Z.eqb_eq in Hox. subst x. contradiction.
  - cbn [existsb]. rewrite Z.eqb_refl. reflexivity.
Qed.

Section Termination.
Variable self : Board.
Variable captures : dict (list (Z * Z)).
Hypothesis captures_checked : captures_ok captures = true.

(** With a key to start from and fuel for every free square, the search
    ends by exhaustion: no KeyError, and the fuel is not used up. *)
Lemma jump_helper_ending fuel :
  forall square captured,
    has_key square captures = true ->
    (length (free_squares captured) < fuel)%nat ->
    ending (jump_helper self captures fuel square captured) = None.
Proof.
  induction fuel as [|fuel IH]; intros square captured Hkey Hfuel; [lia|].
  cbn [jump_helper]. unfold has_key in Hkey.
  destruct (dict_get square captures) as [jumps|] eqn:Hget; [|discriminate].
  apply gen_for_ending. intros [o e] Hin.
  destruct (valid_jump self captured (o, e)) eqn:Hv; [|reflexivity].
  destruct (stops_here self square); [reflexivity|].
  pose proof (jump_facts _ _ _ _ captures_checked Hget Hin) as Hok.
  unfold jump_ok in Hok. rewrite !andb_true_iff in Hok.
  destruct Hok as [[[[[[Ho _] _] _] Hk] _] _].
  apply on_board_range in Ho.
  assert (ending (jump_helper self captures fuel e (o :: captured)) = None)
    as Hsub.
  { apply IH; [exact Hk|].
    pose proof (free_squares_shrink captured o Ho
                  (valid_jump_not_captured _ _ _ _ Hv)). lia. }
  destruct (jump_helper self captures fuel e (o :: captured))
    as [[|y ys] en]; cbn [ending snd] in Hsub; subst en; reflexivity.
Qed.

(** Running with more fuel than [depth_bound] would change nothing: the
    chains from the empty set of captures end by exhaustion. *)
Lemma jump_helper_total square :
  has_key square captures = true ->
  ending (jump_helper self captures depth_bound square []) = None.
Proof.
  intros Hkey. apply jump_helper_ending; [exact Hkey|].
  vm_compute. lia.
Qed.

(** A man's table is empty on the row where it is crowned, so a chain
    cannot go on from there. *)
Variable crown : Z.
Hypothesis crown_empty :
  forall k jumps,
    dict_get k captures = Some jumps -> Z.shiftr k 3 = crown -> jumps = [].

Lemma chain_crown square captured c :
  chain_from self captures square captured c ->
  forall pre land post,
    c = pre ++ land :: post -> pre <> [] -> Z.shiftr land 3 = crown ->
    post = [].
Proof.
  induction 1 as [sq capt jumps o e Hg Hi Hv Hs
                 |sq capt jumps o e Hg Hi Hv Hs Hn
                 |sq capt jumps o e c Hg Hi Hv Hs Hc IH];
    intros pre land post Heq Hpre Hrow.
  1,2: destruct pre as [|p [|q pre]]; [contradiction| |];
       [ injection Heq as _ _ <-; reflexivity
       | injection Heq as _ _ Heq; destruct pre; discriminate Heq ].
  destruct pre as [|p pre]; [contradiction|].
  injection Heq as _ Heq.
  destruct pre as [|q pre].
  - cbn [app] in Heq. subst c.
    destruct (chain_head _ _ _ _ _ Hc) as (jumps' & o' & e1 & rest & Hc' & Hg' & Hi' & _).
    injection Hc' as <- _.
    rewrite (crown_empty _ _ Hg' Hrow) in Hi'. destruct Hi'.
  - eapply IH; eauto. discriminate.
Qed.
End Termination.

Lemma gen_for_never {A B : Type} (e : exn) (l : list A) (body : A -> gen B) :
  (forall a, In a l -> ending (body a) <> Some e) ->
  ending (gen_for l body) <> Some e.
Proof.
  induction l as [|a l IH]; intros H; cbn [gen_for]; [discriminate|].
  unfold gen_seq. destruct (ending (body a)) as [e'|] eqn:E.
  - rewrite E. rewrite <- E. apply H. now left.
  - cbn [ending snd]. apply IH. intros a' Ha'. apply H. now right.
Qed.

(** The fuel of the model is never what stops the search, on any board:
    the traces are those of the unbounded recursion of the source. *)
Lemma capture_chains_fuel (self : Board) (square : Z) :
  ending (capture_chains self square) <> Some FuelExhausted.
Proof.
  unfold capture_chains.
  destruct (_CAPTURES (cell (_board self) square)) as [captures|] eqn:Ht;
    [|discriminate].
  destruct (has_key square captures) eqn:Hk.
  - rewrite (jump_helper_total self captures (all_captures_ok _ _ Ht) _ Hk).
    discriminate.
  - unfold has_key in Hk. unfold depth_bound. cbn [jump_helper].
    destruct (dict_get square captures); discriminate.
Qed.

Lemma legal_moves_fuel (self : Board) :
  ending (legal_moves self) <> Some FuelExhausted.
Proof.
  assert (ending (jumps self) <> Some FuelExhausted) as Hj.
  { unfold jumps. apply gen_for_never. intros square _.
    unfold jumps_from, gen_map. cbn [ending snd]. apply capture_chains_fuel. }
  assert (ending (simple_moves self) <> Some FuelExhausted) as Hs.
  { unfold simple_moves. apply gen_for_never. intros i _.
    destruct (_MOVES (cell (_board self) i)) as [tbl|]; [|discriminate].
    destruct (dict_get i tbl) as [ends|]; [|discriminate].
    apply gen_for_never. intros e _.
    destruct (piece_eqb (cell (_board self) e) Empty); discriminate. }
  unfold legal_moves. destruct (jumps self) as [[|y ys] [e|]]; auto.
Qed.

Lemma crown_row_lookup colour tbl k jumps :
  _CAPTURES (PIECES colour) = Some tbl ->
  dict_get k tbl = Some jumps ->
  Z.shiftr k 3 = 7 * Z.b2z (negb colour) -> jumps = [].
Proof.
  intros Ht Hg Hrow.
  pose proof (men_crown_row_empty colour tbl Ht) as Hc.
  unfold crown_row_empty in Hc. rewrite forallb_forall in Hc.
  specialize (Hc _ (dict_get_In _ _ _ Hg)). cbn beta iota in Hc.
  rewrite Hrow, Z.eqb_refl in Hc. cbn [negb orb] in Hc.
  destruct jumps; [reflexivity|discriminate].
Qed.

Lemma capture_chains_sound (self : Board) (square : Z) (c : list Z) :
  In c (yielded (capture_chains self square)) ->
  exists captures,
    _CAPTURES (cell (_board self) square) = Some captures
    /\ captures_ok captures = true
    /\ chain_from self captures square [] c.
Proof.
  unfold capture_chains.
  destruct (_CAPTURES (cell (_board self) square)) as [captures|] eqn:Ht;
    [|intros []].
  intros Hin. exists captures. split; [reflexivity|]. split.
  - eapply all_captures_ok; eauto.
  - eapply jump_helper_sound; eauto.
Qed.

(** ** The example positions, evaluated *)

Example king_position_cell : cell (_board king_position) 42 = WH_KING.
Proof. reflexivity. Qed.

Example crowning_chain :
  capture_chains crowning_position 17 = ([[17; 3]], None).
Proof. vm_compute. reflexivity. Qed.

Example home_row_chain :
  capture_chains home_row_position 56 = ([[56; 42]], None).
Proof. vm_compute. reflexivity. Qed.

Example double_jump_moves :
  legal_moves double_jump_position = (["b2d4f6"%string], None).
Proof. vm_compute. reflexivity. Qed.

(** ** Properties of the capture chains *)

(** C1, evaluated on the code. A white king on c3 jumps d2 and lands on e1,
    on White's own first row; the recursive call reads the empty landing
    square to decide whether the piece is a king, finds no king there, and
    cuts the chain after the next jump over f2 to g3. The jump from g3 over
    the black man on f4 to the empty e5 passes the three tests of the loop,
    yet the only chain generated is c3 e1 g3. *)
Theorem king_chain_cut_on_home_row :
  cell (_board king_position) 42 = WH_KING
  /\ capture_chains king_position 42 = ([[42; 60; 46]], None)
  /\ legal_moves king_position = (["c3e1g3"%string], None)
  /\ stops_here king_position 60 = true
  /\ exists captures jumps,
       _CAPTURES (cell (_board king_position) 42) = Some captures
       /\ dict_get 46 captures = Some jumps
       /\ In (37, 28) jumps
       /\ valid_jump king_position (captured_squares [42; 60; 46]) (37, 28)
          = true.
Proof.
  repeat split; try (vm_compute; reflexivity).
  eexists. eexists. repeat split; try (vm_compute; reflexivity).
  vm_compute. left. reflexivity.
Qed.

(** C2, evaluated on the code. The chain c3 e1 g3 of the white king of
    [king_position] is yielded as a complete legal move, and the longer
    c3 e1 g3 e5 is not, although the moving piece is a king, so that no
    cutoff for men applies to it, and the jump from its last square g3
    over the black man on f4 to the empty e5 passes the three tests of the
    loop, f4 not being among the squares captured by the chain. The chain
    is not maximal. This is the defect recorded under C1: below the top
    level jump_helper reads is_king from the empty landing square. *)
Theorem king_chain_not_maximal :
  _is_king (cell (_board king_position) 42) = true
  /\ turn king_position = WHITE
  /\ In [42; 60; 46] (yielded (capture_chains king_position 42))
  /\ yielded (legal_moves king_position) = ["c3e1g3"%string]
  /\ render [42; 60; 46] = "c3e1g3"%string
  /\ captured_squares [42; 60; 46] = [51; 53]
  /\ (exists captures jumps,
        _CAPTURES (cell (_board king_position) 42) = Some captures
        /\ dict_get 46 captures = Some jumps
        /\ In (37, 28) jumps
        /\ lower (cell (_board king_position) 37)
           = PIECES (negb (turn king_position))
        /\ ~ In 37 (captured_squares [42; 60; 46])
        /\ cell (_board king_position) 28 = Empty
        /\ valid_jump king_position (captured_squares [42; 60; 46]) (37, 28)
           = true)
  /\ ~ In (render [42; 60; 46; 28]) (yielded (legal_moves king_position)).
Proof.
  split; [reflexivity|]. split; [reflexivity|].
  split; [vm_compute; left; reflexivity|].
  split; [vm_compute; reflexivity|].
  split; [vm_compute; reflexivity|].
  split; [vm_compute; reflexivity|].
  split.
  - exists (king_dict _captures), [(37, 28); (53, 60)].
    split; [reflexivity|]. split; [vm_compute; reflexivity|].
    split; [left; reflexivity|]. split; [reflexivity|].
    split; [|split; [reflexivity|vm_compute; reflexivity]].
    vm_compute. intros [H|[H|[]]]; discriminate H.
  - vm_compute. intros [H|[]]. discriminate H.
Qed.

(** X23. A generated chain is maximal wherever the test of the source did
    not cut it: take its last jump, from [d] to [e]. Unless the test
    [not is_king and square >> 3 == 7 * self.turn] held at [d], as the
    code evaluates it (is_king read from the cell of [d], which is empty
    below the top level), no entry of the piece's capture table at [e] is
    a valid jump, the squares captured along the chain counting as already
    captured. With an empty [pre] this is the case of a single jump: it is
    only generated alone when no second jump follows it or the test held
    at the origin. *)
Theorem chains_maximal (self : Board) (square : Z) captures
        (c pre : list Z) (d e : Z) :
  _CAPTURES (cell (_board self) square) = Some captures ->
  In c (yielded (capture_chains self square)) ->
  c = pre ++ [d; e] ->
  stops_here self d = false ->
  forall jumps j,
    dict_get e captures = Some jumps -> In j jumps ->
    valid_jump self (captured_squares c) j = false.
Proof.
  intros Ht Hin Hc Hd.
  destruct (capture_chains_sound _ _ _ Hin) as (captures' & Ht' & Hok & Hch).
  rewrite Ht in Ht'. injection Ht' as <-.
  pose proof (chain_maximal _ _ Hok _ _ _ Hch pre d e Hc Hd) as Hn.
  eapply no_jump_ext; [|exact Hn].
  intros x. rewrite app_nil_r, <- in_rev. tauto.
Qed.

Lemma chains_maximal_witness :
  valid_jump double_jump_position (captured_squares [49; 35; 21]) (12, 3)
  = false.
Proof.
  apply (chains_maximal double_jump_position 49
           (wh_dict _captures) [49; 35; 21] [49] 35 21 eq_refl)
    with (jumps := [(12, 3); (14, 7)]).
  - vm_compute. left. reflexivity.
  - reflexivity.
  - vm_compute. reflexivity.
  - vm_compute. reflexivity.
  - left. reflexivity.
Defined.

(** C4. In a chain generated for a man of the side to move, a landing
    square on the row where that man is crowned (the row tested by
    Board.move, [7 * (not self.turn)]) is the last square of the chain. *)
Theorem man_chain_ends_on_crown_row (self : Board) (square : Z)
        (c pre : list Z) (land : Z) (post : list Z) :
  cell (_board self) square = PIECES (turn self) ->
  In c (yielded (capture_chains self square)) ->
  c = pre ++ land :: post -> pre <> [] ->
  Z.shiftr land 3 = 7 * Z.b2z (negb (turn self)) ->
  post = [].
Proof.
  intros Hman Hin Hc Hpre Hrow.
  destruct (capture_chains_sound _ _ _ Hin) as (captures & Ht & Hok & Hch).
  rewrite Hman in Ht.
  eapply (chain_crown self captures (7 * Z.b2z (negb (turn self)))); eauto.
  intros k jumps Hg Hk. eapply crown_row_lookup; eauto.
Qed.

Lemma man_chain_ends_on_crown_row_witness :
  In [17; 3] (yielded (capture_chains crowning_position 17))
  /\ @nil Z = [].
Proof.
  assert (In [17; 3] (yielded (capture_chains crowning_position 17))) as Hin.
  { vm_compute. left. reflexivity. }
  split; [exact Hin|].
  apply (man_chain_ends_on_crown_row crowning_position 17 [17; 3] [17] 3 []
           eq_refl Hin eq_refl).
  - discriminate.
  - reflexivity.
Defined.

(** C5. The squares jumped over in one generated chain (the squares that
    Board.move clears between consecutive squares of the chain) are
    pairwise distinct. *)
Theorem no_recapture (self : Board) (square : Z) (c : list Z) :
  In c (yielded (capture_chains self square)) ->
  NoDup (captured_squares c).
Proof.
  intros Hin.
  destruct (capture_chains_sound _ _ _ Hin) as (captures & Ht & Hok & Hch).
  exact (proj1 (chain_captured _ _ Hok _ _ _ Hch)).
Qed.

Lemma no_recapture_witness : NoDup (captured_squares [42; 60; 46]).
Proof.
  apply (no_recapture king_position 42).
  vm_compute. left. reflexivity.
Defined.

(** C10. A man of the side to move that stands on its own first row (row 7
    when White moves, row 0 when Black moves) only makes chains of one
    jump: each generated chain is the origin and one landing square. *)
Theorem home_row_man_single_jump (self : Board) (square : Z) (c : list Z) :
  cell (_board self) square = PIECES (turn self) ->
  Z.shiftr square 3 = 7 * Z.b2z (turn self) ->
  In c (yielded (capture_chains self square)) ->
  exists jump_end, c = [square; jump_end].
Proof.
  intros Hman Hrow Hin.
  destruct (capture_chains_sound _ _ _ Hin) as (captures & Ht & Hok & Hch).
  assert (stops_here self square = true) as Hs.
  { unfold stops_here. rewrite Hman, Hrow, Z.eqb_refl.
    destruct (turn self); reflexivity. }
  inversion Hch; subst; try congruence. eauto.
Qed.

Lemma home_row_man_single_jump_witness :
  exists jump_end, [56; 42] = [56; jump_end].
Proof.
  apply (home_row_man_single_jump home_row_position 56 [56; 42]).
  - reflexivity.
  - reflexivity.
  - vm_compute. left. reflexivity.
Defined.

(** ** Move texts *)

Lemma xy_roundtrip (i : Z) :
  0 <= i < 64 ->
  exists a b, _i_to_xy i = String a (String b EmptyString)
              /\ _xy_to_i (String a (String b EmptyString)) = Some i.
Proof.
  intros Hi.
  assert (forallb xy_ok (range 0 64 1) = true) as Hall
      by (vm_compute; reflexivity).
  rewrite forallb_forall in Hall.
  specialize (Hall i (proj2 (In_squares i) Hi)). unfold xy_ok in Hall.
  destruct (_i_to_xy i) as [|a [|b [|]]]; try discriminate Hall.
  exists a, b. split; [reflexivity|].
  destruct (_xy_to_i (String a (String b EmptyString))); [|discriminate Hall].
  apply Z.eqb_eq in Hall. now subst.
Qed.

Lemma parse_render (squares : list Z) :
  Forall (fun i => on_board i = true) squares ->
  parse_squares (render squares) = Some squares.
Proof.
  unfold parse_squares, render.
  induction 1 as [|i squares Hi _ IH]; [reflexivity|].
  apply on_board_range in Hi.
  destruct (xy_roundtrip i Hi) as (a & b & Hxy & Hback).
  cbn [map join fold_right]. rewrite Hxy.
  cbn [String.append sliced2 traverse]. rewrite Hback.
  fold (join (map _i_to_xy squares)). rewrite IH. reflexivity.
Qed.

Lemma string_app_nil (s : string) : (s ++ "")%string = s.
Proof. induction s as [|a s IH]; simpl; [reflexivity|now rewrite IH]. Qed.

Lemma render_pair (i e : Z) :
  render [i; e] = (_i_to_xy i ++ _i_to_xy e)%string.
Proof. unfold render. cbn [map join fold_right]. now rewrite string_app_nil. Qed.

(** ** Pieces of the side to move *)

Lemma piece_eqb_eq (p q : piece) : piece_eqb p q = true <-> p = q.
Proof. destruct p, q; simpl; split; congruence. Qed.

Lemma enumerate_from_In {A : Type} (d : A) (l : list A) :
  forall k i v,
    In (i, v) (enumerate_from k l) ->
    k <= i < k + Z.of_nat (length l) /\ nth (Z.to_nat (i - k)) l d = v.
Proof.
  induction l as [|a l IH]; intros k i v; cbn [enumerate_from In length];
    [tauto|].
  intros [[= <- <-]|Hin].
  - rewrite Z.sub_diag. split; [lia|reflexivity].
  - destruct (IH _ _ _ Hin) as [Hr Hn]. split; [lia|].
    replace (Z.to_nat (i - k)) with (S (Z.to_nat (i - (k + 1)))) by lia.
    exact Hn.
Qed.

Lemma enumerate_from_nth {A : Type} (d : A) (l : list A) :
  forall k n,
    (n < length l)%nat ->
    In (k + Z.of_nat n, nth n l d) (enumerate_from k l).
Proof.
  induction l as [|a l IH]; intros k n Hn; cbn [length] in Hn; [lia|].
  cbn [enumerate_from In]. destruct n as [|n].
  - left. f_equal. lia.
  - right. replace (k + Z.of_nat (S n)) with (k + 1 + Z.of_nat n) by lia.
    apply IH. lia.
Qed.

Lemma find_all_pieces_spec (self : Board) (colour : piece) (i : Z) :
  In i (_find_all_pieces self colour) ->
  0 <= i < Z.of_nat (length (_board self))
  /\ lower (cell (_board self) i) = colour.
Proof.
  unfold _find_all_pieces. rewrite in_flat_map.
  intros ([i' v] & Hin & Hi).
  destruct (piece_eqb (lower v) colour) eqn:E; [|destruct Hi].
  destruct Hi as [<-|[]]. apply piece_eqb_eq in E.
  destruct (enumerate_from_In Empty _ _ _ _ Hin) as [Hr Hn].
  split; [lia|]. unfold cell. rewrite Z.sub_0_r in Hn. now rewrite Hn.
Qed.

Lemma mover_has_tables (p : piece) (colour : bool) :
  lower p = PIECES colour ->
  (exists cp, _CAPTURES p = Some cp) /\ (exists mv, _MOVES p = Some mv).
Proof.
  destruct p, colour; simpl; try discriminate; intros _; split; eauto.
Qed.

(** ** What legal_moves yields *)

Lemma chain_pairs (self : Board) captures square captured c :
  captures_ok captures = true ->
  chain_from self captures square captured c ->
  Forall (fun ba => is_capture ba = true /\ dark (midpoint ba) = true)
         (pairwise c).
Proof.
  intros Hok.
  assert (Hpair : forall sq jumps o e,
             dict_get sq captures = Some jumps -> In (o, e) jumps ->
             is_capture (sq, e) = true /\ dark (midpoint (sq, e)) = true).
  { intros sq jumps o e Hg Hi.
    pose proof (jump_facts _ _ _ _ Hok Hg Hi) as H.
    unfold jump_ok in H. rewrite !andb_true_iff in H.
    destruct H as [[[[[[_ Hd] _] _] _] Hm] Hc].
    apply Z.eqb_eq in Hm. rewrite Hm. split; [exact Hc|exact Hd]. }
  induction 1 as [sq capt jumps o e Hg Hi Hv Hs
                 |sq capt jumps o e Hg Hi Hv Hs Hn
                 |sq capt jumps o e c Hg Hi Hv Hs Hc IH].
  1,2: cbn [pairwise]; constructor; [eapply Hpair; eauto|constructor].
  destruct (chain_head _ _ _ _ _ Hc) as (jumps' & o' & e1 & rest & -> & _).
  change (pairwise (sq :: e :: e1 :: rest))
    with ((sq, e) :: pairwise (e :: e1 :: rest)).
  constructor; [eapply Hpair; eauto|exact IH].
Qed.

Lemma jumps_yielded (self : Board) (mv : string) :
  In mv (yielded (jumps self)) -> capture_move self mv.
Proof.
  unfold jumps. intros Hin.
  apply gen_for_yielded in Hin as (square & Hsq & Hmv).
  unfold jumps_from in Hmv. apply gen_map_yielded in Hmv as (c & Hc & ->).
  exists square, c. auto.
Qed.

Lemma simple_moves_yielded (self : Board) (mv : string) :
  In mv (yielded (simple_moves self)) ->
  exists i tbl ends end_,
    In i (_find_all_pieces self (PIECES (turn self)))
    /\ _MOVES (cell (_board self) i) = Some tbl
    /\ dict_get i tbl = Some ends
    /\ In end_ ends
    /\ cell (_board self) end_ = Empty
    /\ mv = (_i_to_xy i ++ _i_to_xy end_)%string.
Proof.
  unfold simple_moves. intros Hin.
  apply gen_for_yielded in Hin as (i & Hi & Hmv).
  destruct (_MOVES (cell (_board self) i)) as [tbl|] eqn:Ht; [|destruct Hmv].
  destruct (dict_get i tbl) as [ends|] eqn:Hg; [|destruct Hmv].
  apply gen_for_yielded in Hmv as (end_ & He & Hmv).
  destruct (piece_eqb (cell (_board self) end_) Empty) eqn:E; [|destruct Hmv].
  destruct Hmv as [<-|[]]. apply piece_eqb_eq in E.
  exists i, tbl, ends, end_. auto 10.
Qed.

Lemma legal_moves_cases (self : Board) :
  legal_moves self = jumps self
  \/ (jumps self = ([], None) /\ legal_moves self = simple_moves self).
Proof.
  unfold legal_moves. destruct (jumps self) as [[|y ys] [e|]]; auto.
Qed.

Lemma capture_move_squares (self : Board) (mv : string) :
  length (_board self) = 64%nat -> capture_move self mv ->
  exists squares,
    mv = render squares /\ legal_squares squares /\ clears_dark squares.
Proof.
  intros Hlen (square & c & Hsq & Hc & ->). exists c. split; [reflexivity|].
  destruct (capture_chains_sound _ _ _ Hc) as (captures & Ht & Hok & Hch).
  pose proof (chain_squares _ _ Hok _ _ _ Hch) as Hall.
  pose proof (chain_pairs _ _ _ _ _ Hok Hch) as Hpairs.
  split.
  - destruct (chain_head _ _ _ _ _ Hch) as (jumps & o & e & rest & -> & _).
    exists square, (e :: rest). repeat split; try discriminate.
    + apply find_all_pieces_spec in Hsq as [Hr _]. rewrite Hlen in Hr.
      now apply on_board_range.
    + exact Hall.
  - unfold clears_dark. eapply Forall_impl; [|exact Hpairs].
    cbv beta. tauto.
Qed.

Lemma moves_entry tbl p i ends e :
  _MOVES p = Some tbl -> dict_get i tbl = Some ends -> In e ends ->
  on_board e = true /\ dark e = true /\ is_capture (i, e) = false.
Proof.
  intros Ht Hg Hin. destruct (all_moves_ok _ _ Ht) as [Hok _].
  unfold moves_ok in Hok. rewrite forallb_forall in Hok.
  specialize (Hok _ (dict_get_In _ _ _ Hg)). cbn beta iota in Hok.
  rewrite forallb_forall in Hok. specialize (Hok _ Hin).
  rewrite !andb_true_iff, negb_true_iff in Hok. tauto.
Qed.

Lemma legal_move_squares (self : Board) (mv : string) :
  length (_board self) = 64%nat ->
  In mv (yielded (legal_moves self)) ->
  exists squares,
    mv = render squares /\ legal_squares squares /\ clears_dark squares.
Proof.
  intros Hlen Hin.
  destruct (legal_moves_cases self) as [E|[_ E]]; rewrite E in Hin.
  - apply (capture_move_squares self); [exact Hlen|]. now apply jumps_yielded.
  - apply simple_moves_yielded in Hin
      as (i & tbl & ends & e & Hi & Ht & Hg & He & _ & ->).
    destruct (moves_entry _ _ _ _ _ Ht Hg He) as (Ho & Hd & Hcap).
    exists [i; e]. split; [symmetry; apply render_pair|]. split.
    + exists i, [e]. repeat split; try discriminate.
      * apply find_all_pieces_spec in Hi as [Hr _]. rewrite Hlen in Hr.
        now apply on_board_range.
      * constructor; [auto|constructor].
    + unfold clears_dark. cbn [pairwise]. constructor; [|constructor].
      congruence.
Qed.

Lemma legal_squares_on_board (squares : list Z) :
  legal_squares squares -> Forall (fun i => on_board i = true) squares.
Proof.
  intros (first & rest & -> & _ & Hf & Hr). constructor; [exact Hf|].
  eapply Forall_impl; [|exact Hr]. cbv beta. tauto.
Qed.

Lemma legal_move_parses (self : Board) (mv : string) :
  length (_board self) = 64%nat ->
  In mv (yielded (legal_moves self)) ->
  exists squares,
    parse_squares mv = Some squares
    /\ legal_squares squares /\ clears_dark squares.
Proof.
  intros Hlen Hin.
  destruct (legal_move_squares _ _ Hlen Hin) as (squares & -> & Hsq & Hcl).
  exists squares. split; [|auto].
  apply parse_render. now apply legal_squares_on_board.
Qed.

(** ** Well-formed boards raise nothing *)

Lemma light_empty_ok (board : list piece) :
  light_empty board = true <-> light_ok board.
Proof.
  unfold light_empty, light_ok. rewrite forallb_forall. split.
  - intros H j Hj Hcell. unfold cell in Hcell.
    destruct (Nat.lt_ge_cases (Z.to_nat j) (length board)) as [Hlt|Hge].
    + pose proof (enumerate_from_nth Empty board 0 _ Hlt) as Hin.
      apply H in Hin. rewrite Z.add_0_l, Z2Nat.id in Hin by exact Hj.
      apply orb_true_iff in Hin as [Hd|He]; [exact Hd|].
      apply piece_eqb_eq in He. contradiction.
    + rewrite nth_overflow in Hcell by exact Hge. contradiction.
  - intros H [i v] Hin.
    destruct (enumerate_from_In Empty _ _ _ _ Hin) as [Hr Hn].
    rewrite Z.sub_0_r in Hn. apply orb_true_iff.
    destruct v; try (left; apply H; [lia|unfold cell; rewrite Hn; discriminate]).
    right. reflexivity.
Qed.

Lemma mover_on_dark (self : Board) (colour : bool) (i : Z) :
  wf_board self -> In i (_find_all_pieces self (PIECES colour)) ->
  0 <= i < 64 /\ dark i = true /\ lower (cell (_board self) i) = PIECES colour.
Proof.
  intros [Hlen Hlight] Hin.
  apply find_all_pieces_spec in Hin as [Hr Hp]. rewrite Hlen in Hr.
  split; [lia|]. split; [|exact Hp].
  apply light_empty_ok in Hlight. apply Hlight; [lia|].
  intros E. rewrite E in Hp. destruct colour; discriminate.
Qed.

Lemma jumps_ending (self : Board) :
  wf_board self -> ending (jumps self) = None.
Proof.
  intros Hwf. unfold jumps. apply gen_for_ending. intros i Hi.
  destruct (mover_on_dark _ _ _ Hwf Hi) as (Hr & Hd & Hp).
  destruct (mover_has_tables _ _ Hp) as [[cp Hcp] _].
  unfold jumps_from, gen_map, capture_chains. cbn [ending snd]. rewrite Hcp.
  apply jump_helper_total.
  - eapply all_captures_ok; eauto.
  - apply dark_has_key; auto. eapply all_captures_keys; eauto.
Qed.

Lemma simple_moves_ending (self : Board) :
  wf_board self -> ending (simple_moves self) = None.
Proof.
  intros Hwf. unfold simple_moves. apply gen_for_ending. intros i Hi.
  destruct (mover_on_dark _ _ _ Hwf Hi) as (Hr & Hd & Hp).
  destruct (mover_has_tables _ _ Hp) as [_ [mv Hmv]]. rewrite Hmv.
  destruct (all_moves_ok _ _ Hmv) as [_ Hkeys].
  pose proof (dark_has_key mv i Hkeys Hr Hd) as Hk. unfold has_key in Hk.
  destruct (dict_get i mv) as [ends|]; [|discriminate].
  apply gen_for_ending. intros e _.
  destruct (piece_eqb (cell (_board self) e) Empty); reflexivity.
Qed.

Lemma legal_moves_ending (self : Board) :
  wf_board self -> ending (legal_moves self) = None.
Proof.
  intros Hwf.
  destruct (legal_moves_cases self) as [E|[_ E]]; rewrite E.
  - now apply jumps_ending.
  - now apply simple_moves_ending.
Qed.

(** ** Writing cells *)

Lemma length_list_set (board : list piece) (n : nat) (v : piece) :
  length (list_set board n v) = length board.
Proof.
  revert n. induction board as [|c r IH]; intros [|n]; simpl; auto.
Qed.

Lemma nth_list_set_other (board : list piece) (m n : nat) (v : piece) :
  n <> m -> nth n (list_set board m v) Empty = nth n board Empty.
Proof.
  revert m n. induction board as [|c r IH]; intros [|m] [|n] H; simpl; auto.
  contradiction.
Qed.

Lemma nth_list_set_same (board : list piece) (m : nat) (v : piece) :
  nth m (list_set board m v) Empty = v
  \/ nth m (list_set board m v) Empty = nth m board Empty.
Proof.
  revert m. induction board as [|c r IH]; intros [|m]; simpl; auto.
Qed.

Lemma light_ok_clear (board : list piece) (i : Z) :
  light_ok board -> light_ok (set_cell board i Empty).
Proof.
  intros H j Hj Hcell. apply H; [exact Hj|].
  unfold cell, set_cell in *.
  destruct (Nat.eq_dec (Z.to_nat j) (Z.to_nat i)) as [E|E].
  - rewrite E in *.
    destruct (nth_list_set_same board (Z.to_nat i) Empty) as [Hs|Hs];
      rewrite Hs in Hcell; [contradiction|exact Hcell].
  - now rewrite nth_list_set_other in Hcell.
Qed.

Lemma light_ok_put (board : list piece) (i : Z) (v : piece) :
  light_ok board -> 0 <= i -> dark i = true ->
  light_ok (set_cell board i v).
Proof.
  intros H Hi Hd j Hj Hcell.
  destruct (Z.eq_dec j i) as [->|E]; [exact Hd|].
  apply H; [exact Hj|]. unfold cell, set_cell in *.
  rewrite nth_list_set_other in Hcell by lia. exact Hcell.
Qed.

Lemma capture_steps_keep (pairs : list (Z * Z)) :
  forall board,
    light_ok board ->
    light_ok (fold_left capture_step pairs board)
    /\ length (fold_left capture_step pairs board) = length board.
Proof.
  induction pairs as [|[before after] pairs IH]; intros board H;
    cbn [fold_left]; [auto|].
  assert (light_ok (capture_step board (before, after))
          /\ length (capture_step board (before, after)) = length board)
    as [Hl Hn].
  { unfold capture_step.
    destruct ((Z.abs (before - after) =? 18) || (Z.abs (before - after) =? 14)).
    - split; [now apply light_ok_clear|apply length_list_set].
    - auto. }
  destruct (IH _ Hl) as [Hl' Hn']. split; [exact Hl'|congruence].
Qed.

Lemma gen_contains_spec (mv : string) (g : gen string) :
  ending g = None ->
  gen_contains mv g = inl true /\ In mv (yielded g)
  \/ gen_contains mv g = inl false /\ ~ In mv (yielded g).
Proof.
  intros Hend. unfold gen_contains. rewrite Hend.
  destruct (existsb (String.eqb mv) (yielded g)) eqn:E.
  - left. split; [reflexivity|].
    apply existsb_exists in E as (x & Hx & Heq).
    apply String.eqb_eq in Heq. now subst.
  - right. split; [reflexivity|]. intros Hin.
    assert (existsb (String.eqb mv) (yielded g) = true); [|congruence].
    apply existsb_exists. exists mv. split; [exact Hin|apply String.eqb_refl].
Qed.

Lemma gen_contains_found (mv : string) (g : gen string) :
  gen_contains mv g = inl true -> In mv (yielded g).
Proof.
  unfold gen_contains.
  destruct (existsb (String.eqb mv) (yielded g)) eqn:E.
  - intros _. apply existsb_exists in E as (x & Hx & Heq).
    apply String.eqb_eq in Heq. now subst.
  - destruct (ending g); discriminate.
Qed.

Lemma apply_legal_squares (self : Board) (squares : list Z) :
  legal_squares squares -> snd (apply_squares self squares) = None.
Proof. intros (first & rest & -> & _). reflexivity. Qed.

(** ** Properties of the move applicator *)

(** C6. On a well-formed board, Board.move raises the illegal-move error
    exactly for the texts that legal_moves does not yield; when it does,
    the board object is left as it was (cells, turn and ply counter); and a
    text that legal_moves yields is applied without any error. *)
Theorem move_rejects_exactly_illegal (self : Board) (mv : string) :
  wf_board self ->
  (snd (move self mv) = Some IllegalMove
   <-> ~ In mv (yielded (legal_moves self)))
  /\ (snd (move self mv) = Some IllegalMove -> fst (move self mv) = self)
  /\ (In mv (yielded (legal_moves self)) -> snd (move self mv) = None).
Proof.
  intros Hwf. pose proof (legal_moves_ending self Hwf) as Hend.
  unfold move.
  destruct (gen_contains_spec mv _ Hend) as [[-> Hin]|[-> Hnot]].
  - destruct (legal_move_parses self mv (proj1 Hwf) Hin)
      as (squares & -> & Hsq & _).
    pose proof (apply_legal_squares self squares Hsq) as Hnone.
    rewrite Hnone. repeat split; try discriminate; tauto.
  - cbn [fst snd]. repeat split; tauto.
Qed.

Lemma move_rejects_exactly_illegal_witness :
  wf_board Board_init
  /\ (snd (move Board_init "c3c4") = Some IllegalMove
      <-> ~ In "c3c4"%string (yielded (legal_moves Board_init)))
  /\ (snd (move Board_init "c3c4") = Some IllegalMove
      -> fst (move Board_init "c3c4") = Board_init)
  /\ (In "c3c4"%string (yielded (legal_moves Board_init))
      -> snd (move Board_init "c3c4") = None).
Proof.
  assert (wf_board Board_init) as Hwf by (split; reflexivity).
  split; [exact Hwf|].
  apply (move_rejects_exactly_illegal Board_init "c3c4" Hwf).
Defined.

(** C7. A call of Board.move that raises nothing adds exactly one to the
    ply counter and hands the turn to the other side, whatever the number
    of squares of the move. *)
Theorem move_counts_one_ply (self : Board) (mv : string) (self' : Board) :
  move self mv = (self', None) ->
  _half_moves self' = _half_moves self + 1
  /\ turn self' = negb (turn self).
Proof.
  unfold move.
  destruct (gen_contains mv (legal_moves self)) as [[|]|e]; try discriminate.
  destruct (parse_squares mv) as [squares|]; [|discriminate].
  destruct squares as [|first rest]; [discriminate|].
  cbn [apply_squares]. intros [= <-]. split; reflexivity.
Qed.

Lemma move_counts_one_ply_witness :
  _half_moves (fst (move king_position "c3e1g3")) = 10 + 1
  /\ turn (fst (move king_position "c3e1g3")) = negb WHITE.
Proof.
  apply (move_counts_one_ply king_position "c3e1g3").
  vm_compute. reflexivity.
Defined.

Lemma last_in_rest (first : Z) (rest : list Z) (d : Z) :
  rest <> [] -> In (last (first :: rest) d) rest.
Proof.
  revert first. induction rest as [|a rest IH]; intros first H; [contradiction|].
  destruct rest as [|b rest].
  - left. reflexivity.
  - right. change (last (first :: a :: b :: rest) d)
      with (last (a :: b :: rest) d).
    apply IH. discriminate.
Qed.

Lemma apply_squares_wf (self : Board) (squares : list Z) (self' : Board) :
  wf_board self -> legal_squares squares ->
  apply_squares self squares = (self', None) -> wf_board self'.
Proof.
  intros [Hlen Hlight] (first & rest & -> & Hrest & Hfirst & Hall).
  cbn [apply_squares]. intros [= <-]. unfold wf_board. cbn [_board].
  apply light_empty_ok in Hlight.
  destruct (capture_steps_keep (pairwise (first :: rest)) _ Hlight)
    as [Hl Hn].
  split.
  - unfold set_cell. rewrite !length_list_set. rewrite Hlen in Hn. exact Hn.
  - apply light_empty_ok.
    pose proof (last_in_rest first rest first Hrest) as Hlast.
    rewrite Forall_forall in Hall. destruct (Hall _ Hlast) as [Hb Hd].
    apply on_board_range in Hb.
    apply light_ok_put; [|exact (proj1 Hb)|exact Hd].
    apply light_ok_clear. exact Hl.
Qed.

(** C8. The light squares of the starting board are empty, and a call of
    Board.move that raises nothing keeps a well-formed board well formed:
    64 cells, the light ones empty. The square the moved piece is written
    to is dark, and so is every square cleared between two squares of the
    move. *)
Theorem light_squares_stay_empty :
  light_empty _STARTING_BOARD = true
  /\ (forall self mv self',
         wf_board self -> move self mv = (self', None) -> wf_board self')
  /\ (forall self mv squares,
         wf_board self -> In mv (yielded (legal_moves self)) ->
         parse_squares mv = Some squares ->
         dark (last squares 0) = true
         /\ forall ba, In ba (pairwise squares) -> is_capture ba = true ->
                       dark (midpoint ba) = true).
Proof.
  split; [reflexivity|]. split.
  - intros self mv self' Hwf. unfold move.
    destruct (gen_contains mv (legal_moves self)) as [[|]|e] eqn:Hc;
      try discriminate.
    apply gen_contains_found in Hc.
    destruct (legal_move_parses self mv (proj1 Hwf) Hc)
      as (squares & -> & Hsq & _).
    now apply apply_squares_wf.
  - intros self mv squares [Hlen _] Hin Hparse.
    destruct (legal_move_parses self mv Hlen Hin)
      as (squares' & Hparse' & Hsq & Hcl).
    rewrite Hparse in Hparse'. injection Hparse' as <-.
    split.
    + destruct Hsq as (first & rest & -> & Hrest & _ & Hall).
      rewrite Forall_forall in Hall.
      now apply (Hall _ (last_in_rest first rest 0 Hrest)).
    + unfold clears_dark in Hcl. rewrite Forall_forall in Hcl. exact Hcl.
Qed.

Lemma light_squares_stay_empty_witness :
  wf_board king_position
  /\ wf_board (fst (move king_position "c3e1g3")).
Proof.
  assert (wf_board king_position) as Hwf by (split; reflexivity).
  split; [exact Hwf|].
  apply (proj1 (proj2 light_squares_stay_empty)
           king_position "c3e1g3"%string _ Hwf).
  vm_compute. reflexivity.
Defined.

(** C9. On a new board White is to move and legal_moves yields exactly
    seven texts, each one a step of a white man of row 5 of the list (the
    front row, squares 40 to 46) to the next row towards Black (squares 33
    to 39); jumps yields nothing. *)
Theorem starting_position_moves :
  turn Board_init = WHITE
  /\ jumps Board_init = ([], None)
  /\ legal_moves Board_init
     = (["a3b4"; "c3b4"; "c3d4"; "e3d4"; "e3f4"; "g3f4"; "g3h4"]%string, None)
  /\ yielded (legal_moves Board_init)
     = map render [[40; 33]; [42; 33]; [42; 35]; [44; 35]; [44; 37];
                   [46; 37]; [46; 39]]
  /\ legal_moves Board_init = simple_moves Board_init
  /\ length (yielded (legal_moves Board_init)) = 7%nat.
Proof. repeat split; vm_compute; reflexivity. Qed.

(** ** Forced capture *)

Lemma capture_available_jumps (self : Board) :
  capture_available self -> jumps self <> ([], None).
Proof.
  intros (square & captures & jumps_ & o & e & Hsq & Ht & Hg & Hin & Ho & He)
         Hsilent.
  unfold jumps in Hsilent.
  pose proof (gen_for_silent _ _ Hsilent square Hsq) as Hfrom.
  unfold jumps_from, gen_map, capture_chains in Hfrom. rewrite Ht in Hfrom.
  destruct (jump_helper self captures depth_bound square [])
    as [ys en] eqn:Hjh.
  cbn [yielded ending fst snd] in Hfrom. injection Hfrom as Hys Hen.
  apply map_eq_nil in Hys. subst ys en.
  pose proof (jump_helper_silent _ _ _ _ _ Hjh _ _ Hg Hin) as Hv.
  unfold valid_jump in Hv. rewrite Ho, He in Hv.
  destruct (turn self); discriminate Hv.
Qed.

Lemma steps_apart_entry p mv cp i ends jumps_ o e :
  _MOVES p = Some mv -> _CAPTURES p = Some cp ->
  dict_get i mv = Some ends -> dict_get i cp = Some jumps_ ->
  In (o, e) jumps_ -> ~ In e ends.
Proof.
  intros Hmv Hcp Hg Hg' Hin He.
  pose proof (all_steps_apart p mv cp Hmv Hcp) as H.
  unfold steps_apart in H. rewrite forallb_forall in H.
  specialize (H _ (dict_get_In _ _ _ Hg')). cbn beta iota in H.
  rewrite forallb_forall in H. specialize (H _ Hin). cbn beta iota in H.
  unfold dict_get_default in H. rewrite Hg in H.
  apply negb_true_iff in H.
  assert (existsb (Z.eqb e) ends = true); [|congruence].
  apply existsb_exists. exists e. split; [exact He|apply Z.eqb_refl].
Qed.

(** C3. When some piece of the side to move has a table entry over an
    opponent piece onto an empty square, every text that legal_moves
    yields is a capture chain, and none is a step of the move table. *)
Theorem forced_capture (self : Board) (mv : string) :
  length (_board self) = 64%nat ->
  capture_available self ->
  In mv (yielded (legal_moves self)) ->
  capture_move self mv /\ ~ simple_step self mv.
Proof.
  intros Hlen Hav Hin.
  pose proof (capture_available_jumps self Hav) as Hj.
  destruct (legal_moves_cases self) as [E|[E _]]; [|contradiction].
  rewrite E in Hin. apply jumps_yielded in Hin.
  split; [exact Hin|].
  intros (i & mvt & ends & e' & Hi & Hmv & Hg & He & Htext).
  destruct Hin as (square & c & Hsq & Hc & Hrender).
  destruct (capture_chains_sound _ _ _ Hc) as (captures & Ht & Hok & Hch).
  destruct (capture_move_squares self mv Hlen) as (c' & Hc' & Hlegal & _).
  { exists square, c. auto. }
  assert (parse_squares mv = Some c) as Hp1.
  { rewrite Hrender. apply parse_render.
    rewrite Hrender in Hc'.
    destruct (chain_head _ _ _ _ _ Hch) as (jumps_ & o & e & rest & -> & _).
    pose proof (chain_squares _ _ Hok _ _ _ Hch) as Hall. cbn [tl] in Hall.
    constructor.
    - apply find_all_pieces_spec in Hsq as [Hr _]. rewrite Hlen in Hr.
      now apply on_board_range.
    - eapply Forall_impl; [|exact Hall]. cbv beta. tauto. }
  assert (parse_squares mv = Some [i; e']) as Hp2.
  { rewrite Htext, <- render_pair. apply parse_render.
    destruct (moves_entry _ _ _ _ _ Hmv Hg He) as (Hb & _).
    constructor; [now apply on_board_range|]. constructor; [exact Hb|constructor]. }
  rewrite Hp1 in Hp2. injection Hp2 as ->.
  destruct (chain_head _ _ _ _ _ Hch)
    as (jumps_ & o & e & rest & Heq & Hg' & Hin' & _).
  injection Heq as <- <- _.
  exact (steps_apart_entry _ _ _ _ _ _ _ _ Hmv Ht Hg Hg' Hin' He).
Qed.

Lemma forced_capture_witness :
  capture_move double_jump_position "b2d4f6"
  /\ ~ simple_step double_jump_position "b2d4f6".
Proof.
  apply (forced_capture double_jump_position "b2d4f6"%string).
  - reflexivity.
  - exists 49, (wh_dict _captures), [(42, 35)], 42, 35.
    repeat split; try reflexivity.
    + vm_compute. left. reflexivity.
    + left. reflexivity.
  - vm_compute. left. reflexivity.
Defined.

(** * Further properties of the code *)

(** ** Coordinates *)

Lemma str_index_spec (c : ascii) (s : string) (k : Z) :
  str_index c s = Some k ->
  0 <= k < Z.of_nat (String.length s)
  /\ String.get (Z.to_nat k) s = Some c.
Proof.
  revert k. induction s as [|d s IH]; intros k; cbn [str_index];
    [discriminate|].
  destruct (Ascii.eqb_spec c d) as [->|Hne].
  - intros [= <-]. cbn. split; [lia|reflexivity].
  - destruct (str_index c s) as [k'|]; [|discriminate].
    cbn [option_map]. intros [= <-].
    destruct (IH k' eq_refl) as [Hr Hg]. cbn [String.length]. split; [lia|].
    replace (Z.to_nat (Z.succ k')) with (S (Z.to_nat k')) by lia.
    cbn [String.get]. exact Hg.
Qed.

Lemma xy_to_i_inv (xy : string) (i : Z) :
  _xy_to_i xy = Some i -> 0 <= i < 64 /\ _i_to_xy i = xy.
Proof.
  unfold _xy_to_i. destruct xy as [|x [|y [|z r]]]; try discriminate.
  destruct (str_index x X) as [xi|] eqn:Hx; [|discriminate].
  destruct (str_index y Y) as [yi|] eqn:Hy; [|discriminate].
  intros [= <-].
  destruct (str_index_spec _ _ _ Hx) as [Hxr Hxg].
  destruct (str_index_spec _ _ _ Hy) as [Hyr Hyg].
  cbn in Hxr, Hyr. unfold _to_i, _i_to_xy. split; [lia|].
  assert ((yi * 8 + xi) / 8 = yi) as ->
      by (symmetry; apply Z.div_unique with xi; lia).
  assert ((yi * 8 + xi) mod 8 = xi) as ->
      by (symmetry; apply Z.mod_unique with yi; lia).
  unfold char_at. rewrite Hxg, Hyg. reflexivity.
Qed.

(** X1. _xy_to_i and _i_to_xy are inverse of each other on the 64 squares:
    a text parses to square [i] exactly when it is the text of [i]. In
    particular _xy_to_i raises on every text that is not the name of a
    square. *)
Theorem xy_to_i_iff (xy : string) (i : Z) :
  _xy_to_i xy = Some i <-> 0 <= i < 64 /\ _i_to_xy i = xy.
Proof.
  split; [apply xy_to_i_inv|].
  intros [Hi <-]. destruct (xy_roundtrip i Hi) as (a & b & -> & H). exact H.
Qed.

Lemma xy_to_i_iff_witness :
  _xy_to_i "c3" = Some 42 <-> 0 <= 42 < 64 /\ _i_to_xy 42 = "c3"%string.
Proof. apply (xy_to_i_iff "c3"%string 42). Defined.

(** X2. _to_i and divmod(i, 8) are inverse of each other between the
    coordinates accepted by _in_range and the squares 0..63. *)
Theorem to_i_divmod (x y i : Z) :
  (_in_range x y = true /\ _to_i x y = i)
  <-> (0 <= i < 64 /\ i mod 8 = x /\ i / 8 = y).
Proof.
  unfold _in_range, _to_i.
  rewrite !andb_true_iff, !Z.leb_le, !Z.ltb_lt. split.
  - intros [[[[Hx0 Hx8] Hy0] Hy8] <-]. split; [lia|]. split.
    + symmetry. apply Z.mod_unique with y; lia.
    + symmetry. apply Z.div_unique with x; lia.
  - intros (Hi & <- & <-).
    pose proof (Z.mod_pos_bound i 8 ltac:(lia)).
    pose proof (Z.div_mod i 8 ltac:(lia)).
    assert (0 <= i / 8 < 8)
      by (split; [apply Z.div_pos; lia|apply Z.div_lt_upper_bound; lia]).
    repeat split; lia.
Qed.

Lemma to_i_divmod_witness :
  (_in_range 2 5 = true /\ _to_i 2 5 = 42)
  <-> (0 <= 42 < 64 /\ 42 mod 8 = 2 /\ 42 / 8 = 5).
Proof. apply (to_i_divmod 2 5 42). Defined.

(** ** The lookup tables *)

Lemma mem_z_In (x : Z) (l : list Z) : mem_z x l = true <-> In x l.
Proof.
  unfold mem_z. rewrite existsb_exists. split.
  - intros (y & Hy & E). apply Z.eqb_eq in E. now subst.
  - intros H. exists x. split; [exact H|apply Z.eqb_refl].
Qed.

Lemma mem_zz_In (x : Z * Z) (l : list (Z * Z)) :
  mem_zz x l = true <-> In x l.
Proof.
  unfold mem_zz. rewrite existsb_exists. destruct x as [a b]. split.
  - intros ([c d] & Hy & E). cbn [fst snd] in E.
    apply andb_true_iff in E as [E1 E2].
    apply Z.eqb_eq in E1, E2. now subst.
  - intros H. exists (a, b). split; [exact H|].
    cbn [fst snd]. now rewrite !Z.eqb_refl.
Qed.

Lemma has_key_In {V : Type} (k : Z) (d : dict V) :
  has_key k d = true <-> In k (dict_keys d).
Proof.
  unfold has_key, dict_keys.
  induction d as [|[k' v] d IH]; cbn [dict_get map In fst].
  - split; [discriminate|tauto].
  - destruct (Z.eqb_spec k k') as [->|Hne].
    + split; auto.
    + rewrite IH. split; [auto|]. intros [E|H]; [congruence|exact H].
Qed.

Lemma In_range_0 (n i : Z) : 0 <= n -> In i (range 0 n 1) <-> 0 <= i < n.
Proof.
  intros Hn. unfold range. cbn [Z.ltb Z.compare].
  rewrite In_range_from, Z.sub_0_r, Z.div_1_r.
  replace (n + 1 - 1) with n by lia. rewrite Z2Nat.id by lia. lia.
Qed.

Lemma keys_check_spec {V : Type} (tbl : dict V) (k : Z) :
  keys_check tbl = true ->
  (has_key k tbl = true <-> 0 <= k < 72 /\ dark k = true).
Proof.
  unfold keys_check. rewrite andb_true_iff, !forallb_forall.
  intros [Hin Hall]. split.
  - intros Hk. apply has_key_In in Hk. specialize (Hin _ Hk).
    rewrite !andb_true_iff, Z.leb_le, Z.ltb_lt in Hin. tauto.
  - intros [Hr Hd]. specialize (Hall k (proj2 (In_range_0 72 k ltac:(lia)) Hr)).
    rewrite Hd in Hall. exact Hall.
Qed.

(** X3. Every table built by _make_dict has the same keys, under each of
    the four piece characters: the dark squares of rows 0 to 8, that is
    the 32 dark squares of the board and the four squares 65, 67, 69, 71 of
    a ninth row that range(0, 8 + 1) adds. There is no table for [' ']. *)
Theorem table_keys (p : piece) (k : Z) :
  match _MOVES p, _CAPTURES p with
  | Some mv, Some cp =>
      (has_key k mv = true <-> 0 <= k < 72 /\ dark k = true)
      /\ (has_key k cp = true <-> 0 <= k < 72 /\ dark k = true)
  | None, None => p = Empty
  | _, _ => False
  end.
Proof.
  destruct p; cbn [_MOVES _CAPTURES _make_dict]; [reflexivity| | | |];
    (split; apply keys_check_spec; vm_compute; reflexivity).
Qed.

Lemma all_moves_shape (p : piece) (tbl : dict (list Z)) :
  _MOVES p = Some tbl -> moves_shape_check p tbl = true.
Proof. destruct p; simpl; intros [= <-]; vm_compute; reflexivity. Qed.

Lemma step_shape_on_board p k e : step_shape p k e = true -> 0 <= e < 64.
Proof.
  unfold step_shape. rewrite !andb_true_iff. intros [[H _] _].
  now apply on_board_range.
Qed.

(** X4. The entries of _MOVES for a piece at a key are exactly the squares
    of the board one column aside and one row away in the direction of the
    piece: the next row for a black man, the previous row for a white man,
    both for a king. *)
Theorem moves_table_shape (p : piece) tbl (k : Z) ends (e : Z) :
  _MOVES p = Some tbl -> dict_get k tbl = Some ends ->
  (In e ends <-> step_shape p k e = true).
Proof.
  intros Ht Hg. pose proof (all_moves_shape p tbl Ht) as Hc.
  unfold moves_shape_check in Hc. rewrite forallb_forall in Hc.
  specialize (Hc _ (dict_get_In _ _ _ Hg)). cbn beta iota in Hc.
  apply andb_true_iff in Hc as [H1 H2].
  rewrite forallb_forall in H1, H2. split.
  - apply H1.
  - intros Hs. specialize (H2 e (proj2 (In_squares e) (step_shape_on_board _ _ _ Hs))).
    rewrite Hs in H2. now apply mem_z_In.
Qed.

Lemma moves_table_shape_witness :
  In 33 [33; 35] <-> step_shape WH_PIECE 42 33 = true.
Proof.
  apply (moves_table_shape WH_PIECE (wh_dict _moves) 42 [33; 35] 33);
    reflexivity.
Defined.

Lemma all_captures_shape (p : piece) mv cp :
  _MOVES p = Some mv -> _CAPTURES p = Some cp ->
  captures_shape_check mv cp = true.
Proof. destruct p; simpl; intros [= <-] [= <-]; vm_compute; reflexivity. Qed.

(** X5. The entries of _CAPTURES for a piece at a key are exactly the pairs
    (over, end) of two steps of the piece's move table in a straight line:
    [over] is a step from the key, [end] a step from [over], by the same
    difference of indices. *)
Theorem captures_are_double_steps (p : piece) mv cp (k : Z) jumps (o e : Z) :
  _MOVES p = Some mv -> _CAPTURES p = Some cp ->
  dict_get k cp = Some jumps ->
  (In (o, e) jumps
   <-> In o (dict_get_default k mv) /\ In e (dict_get_default o mv)
       /\ e - o = o - k).
Proof.
  intros Hm Hc Hg. pose proof (all_captures_shape p mv cp Hm Hc) as H.
  unfold captures_shape_check in H. apply andb_true_iff in H as [H _].
  rewrite forallb_forall in H.
  specialize (H _ (dict_get_In _ _ _ Hg)). cbn beta iota in H.
  apply andb_true_iff in H as [H1 H2].
  rewrite forallb_forall in H1, H2. split.
  - intros Hin. specialize (H1 _ Hin). cbn beta iota in H1.
    rewrite !andb_true_iff, !mem_z_In, Z.eqb_eq in H1. tauto.
  - intros (Ho & He & Hd). specialize (H2 _ Ho).
    rewrite forallb_forall in H2. specialize (H2 _ He).
    apply Z.eqb_eq in Hd. rewrite Hd in H2. now apply mem_zz_In.
Qed.

Lemma captures_are_double_steps_witness :
  In (51, 60) [(33, 24); (35, 28); (49, 56); (51, 60)]
  <-> In 51 (dict_get_default 42 (king_dict _moves))
      /\ In 60 (dict_get_default 51 (king_dict _moves))
      /\ 60 - 51 = 51 - 42.
Proof.
  apply (captures_are_double_steps WH_KING (king_dict _moves)
           (king_dict _captures) 42); reflexivity.
Defined.

Lemma dict_get_default_In {V : Type} (k : Z) (d : dict (list V)) (x : V) :
  In x (dict_get_default k d) ->
  exists l, dict_get k d = Some l /\ In x l.
Proof.
  unfold dict_get_default. destruct (dict_get k d) as [l|]; [|intros []].
  intros H. exists l. auto.
Qed.

Lemma mirror_check_spec (a b : dict (list Z)) (k e : Z) :
  mirror_check a b = true -> 0 <= k < 64 ->
  In e (dict_get_default k a) -> In k (dict_get_default e b).
Proof.
  intros Hc Hk Hin. apply dict_get_default_In in Hin as (l & Hg & Hin).
  unfold mirror_check in Hc. rewrite forallb_forall in Hc.
  specialize (Hc _ (dict_get_In _ _ _ Hg)). cbn beta iota in Hc.
  rewrite (proj2 (on_board_range k) Hk) in Hc. cbn [negb orb] in Hc.
  rewrite forallb_forall in Hc. apply mem_z_In. now apply Hc.
Qed.

(** X6. Between squares of the board the move tables mirror each other: a
    step of a white man from [k] to [e] is a step of a black man from [e]
    to [k] and conversely, and a step of a king can be taken back. *)
Theorem moves_tables_mirror (k e : Z) :
  0 <= k < 64 -> 0 <= e < 64 ->
  (In e (dict_get_default k (wh_dict _moves))
   <-> In k (dict_get_default e (bk_dict _moves)))
  /\ (In e (dict_get_default k (king_dict _moves))
      <-> In k (dict_get_default e (king_dict _moves))).
Proof.
  intros Hk He. split; split; apply mirror_check_spec;
    try assumption; vm_compute; reflexivity.
Qed.

Lemma moves_tables_mirror_witness :
  (In 33 (dict_get_default 42 (wh_dict _moves))
   <-> In 42 (dict_get_default 33 (bk_dict _moves)))
  /\ (In 33 (dict_get_default 42 (king_dict _moves))
      <-> In 42 (dict_get_default 33 (king_dict _moves))).
Proof.
  apply (moves_tables_mirror 42 33); lia.
Defined.

(** ** Pieces of one colour *)

Lemma find_all_pieces_complete (self : Board) (colour : piece) (i : Z) :
  0 <= i < Z.of_nat (length (_board self)) ->
  lower (cell (_board self) i) = colour ->
  In i (_find_all_pieces self colour).
Proof.
  intros Hi Hp. unfold _find_all_pieces. apply in_flat_map.
  exists (i, cell (_board self) i). split.
  - pose proof (enumerate_from_nth Empty (_board self) 0 (Z.to_nat i)
                  ltac:(lia)) as H.
    rewrite Z.add_0_l, Z2Nat.id in H by lia. exact H.
  - rewrite Hp. destruct colour; cbn; auto.
Qed.

Lemma pieces_from_bounds (colour : piece) (l : list piece) :
  forall k i,
    In i (flat_map (fun '(i, v) => if piece_eqb (lower v) colour
                                   then [i] else [])
                   (enumerate_from k l)) ->
    k <= i.
Proof.
  induction l as [|a l IH]; intros k i; cbn [enumerate_from flat_map];
    [intros []|].
  rewrite in_app_iff. intros [H|H].
  - destruct (piece_eqb (lower a) colour); [|destruct H].
    destruct H as [<-|[]]. lia.
  - apply IH in H. lia.
Qed.

Lemma pieces_from_NoDup (colour : piece) (l : list piece) :
  forall k,
    NoDup (flat_map (fun '(i, v) => if piece_eqb (lower v) colour
                                    then [i] else [])
                    (enumerate_from k l)).
Proof.
  induction l as [|a l IH]; intros k; cbn [enumerate_from flat_map];
    [constructor|].
  destruct (piece_eqb (lower a) colour); cbn [app]; [|apply IH].
  constructor; [|apply IH].
  intros H. apply pieces_from_bounds in H. lia.
Qed.

(** X7. _find_all_pieces lists, once each, exactly the squares of the
    board whose cell is of the given colour, men and kings alike. *)
Theorem find_all_pieces_iff (self : Board) (colour : piece) (i : Z) :
  (In i (_find_all_pieces self colour)
   <-> 0 <= i < Z.of_nat (length (_board self))
       /\ lower (cell (_board self) i) = colour)
  /\ NoDup (_find_all_pieces self colour).
Proof.
  split; [split|].
  - apply find_all_pieces_spec.
  - intros [Hi Hp]. now apply find_all_pieces_complete.
  - apply pieces_from_NoDup.
Qed.

Lemma find_all_pieces_iff_witness :
  (In 42 (_find_all_pieces king_position WH_PIECE)
   <-> 0 <= 42 < Z.of_nat (length (_board king_position))
       /\ lower (cell (_board king_position) 42) = WH_PIECE)
  /\ NoDup (_find_all_pieces king_position WH_PIECE).
Proof. apply (find_all_pieces_iff king_position WH_PIECE 42). Defined.

(** ** More on what legal_moves yields *)

Lemma gen_for_ending_inv {A B : Type} (l : list A) (body : A -> gen B) :
  ending (gen_for l body) = None ->
  forall a, In a l -> ending (body a) = None.
Proof.
  induction l as [|a l IH]; cbn [gen_for]; [intros _ a []|].
  unfold gen_seq. destruct (ending (body a)) as [e|] eqn:E.
  - rewrite E. discriminate.
  - cbn [ending snd]. intros H a' [<-|Ha']; [exact E|]. now apply IH.
Qed.

Section ChainMore.
Variable self : Board.
Variable captures : dict (list (Z * Z)).
Hypothesis captures_checked : captures_ok captures = true.

(** Along a chain the landing squares are empty and the squares jumped
    over are squares of the board holding opponent pieces. *)
Lemma chain_valid square captured c :
  chain_from self captures square captured c ->
  Forall (fun e => cell (_board self) e = Empty) (tl c)
  /\ Forall (fun o => 0 <= o < 64
                      /\ lower (cell (_board self) o)
                         = PIECES (negb (turn self)))
            (captured_squares c).
Proof.
  assert (Hjump : forall sq capt jumps o e,
             dict_get sq captures = Some jumps -> In (o, e) jumps ->
             valid_jump self capt (o, e) = true ->
             cell (_board self) e = Empty
             /\ (0 <= midpoint (sq, e) < 64
                 /\ lower (cell (_board self) (midpoint (sq, e)))
                    = PIECES (negb (turn self)))).
  { intros sq capt jumps o e Hg Hi Hv.
    rewrite (chain_midpoint _ captures_checked _ _ _ _ Hg Hi).
    pose proof (jump_facts _ _ _ _ captures_checked Hg Hi) as Hok.
    unfold jump_ok in Hok. rewrite !andb_true_iff in Hok.
    destruct Hok as [[[[[[Ho _] _] _] _] _] _]. apply on_board_range in Ho.
    unfold valid_jump in Hv. rewrite !andb_true_iff, !piece_eqb_eq in Hv.
    tauto. }
  induction 1 as [sq capt jumps o e Hg Hi Hv Hs
                 |sq capt jumps o e Hg Hi Hv Hs Hn
                 |sq capt jumps o e c Hg Hi Hv Hs Hc IH].
  1,2: destruct (Hjump _ _ _ _ _ Hg Hi Hv) as [He Ho];
       unfold captured_squares; cbn [tl pairwise map]; split;
       (constructor; [assumption|constructor]).
  destruct (chain_head _ _ _ _ _ Hc) as (jumps' & o' & e1 & rest & -> & _).
  destruct (Hjump _ _ _ _ _ Hg Hi Hv) as [He Ho].
  destruct IH as [IH1 IH2]. cbn [tl] in *.
  rewrite captured_squares_cons. split; constructor; assumption.
Qed.

(** A valid entry of the table is the first jump of some chain, when the
    search ends without an exception. *)
Lemma jump_helper_starts fuel square captured jumps o e :
  dict_get square captures = Some jumps -> In (o, e) jumps ->
  valid_jump self captured (o, e) = true ->
  ending (jump_helper self captures fuel square captured) = None ->
  exists rest,
    In (square :: e :: rest)
       (yielded (jump_helper self captures fuel square captured)).
Proof.
  intros Hg Hi Hv. destruct fuel as [|fuel]; [discriminate|].
  cbn [jump_helper]. rewrite Hg. intros Hend.
  pose proof (gen_for_ending_inv _ _ Hend _ Hi) as Hbody. cbv beta in Hbody.
  rewrite Hv in Hbody.
  assert (exists rest,
             In (square :: e :: rest)
                (yielded
                   (if stops_here self square
                    then gen_yield [square; e]
                    else match jump_helper self captures fuel e (o :: captured)
                         with
                         | ([], None) => gen_yield [square; e]
                         | squares => gen_map (cons square) squares
                         end))) as [rest Hrest].
  { destruct (stops_here self square).
    - exists []. now left.
    - pose proof (jump_helper_sound self captures fuel e (o :: captured))
        as Hsound.
      destruct (jump_helper self captures fuel e (o :: captured))
        as [[|y ys] en].
      + destruct en as [ex|]; [cbn in Hbody; discriminate Hbody|].
        exists []. now left.
      + specialize (Hsound y (or_introl eq_refl)).
        destruct (chain_head _ _ _ _ _ Hsound)
          as (jumps' & o' & e' & rest & -> & _).
        exists (e' :: rest). now left. }
  exists rest. eapply gen_for_complete; eauto.
  cbv beta. rewrite Hv. exact Hrest.
Qed.
End ChainMore.

Lemma jumps_capture_available (self : Board) (mv : string) :
  In mv (yielded (jumps self)) -> capture_available self.
Proof.
  intros Hin. apply jumps_yielded in Hin as (square & c & Hsq & Hc & _).
  destruct (capture_chains_sound _ _ _ Hc) as (captures & Ht & Hok & Hch).
  destruct (chain_head _ _ _ _ _ Hch)
    as (jumps_ & o & e & rest & _ & Hg & Hi & Hv).
  exists square, captures, jumps_, o, e.
  unfold valid_jump in Hv. rewrite !andb_true_iff, !piece_eqb_eq in Hv.
  tauto.
Qed.

Lemma no_capture_no_jumps (self : Board) :
  wf_board self -> ~ capture_available self -> jumps self = ([], None).
Proof.
  intros Hwf Hno. pose proof (jumps_ending self Hwf) as Hend.
  destruct (jumps self) as [[|y ys] en] eqn:E; cbn [ending snd] in Hend;
    subst en; [reflexivity|].
  exfalso. apply Hno. apply (jumps_capture_available self y).
  rewrite E. now left.
Qed.

Lemma step_available_yielded (self : Board) (mv : string) :
  wf_board self -> step_available self mv ->
  In mv (yielded (simple_moves self)).
Proof.
  intros Hwf (i & tbl & ends & e & Hi & Ht & Hg & He & Hempty & ->).
  pose proof (simple_moves_ending self Hwf) as Hend.
  unfold simple_moves in *. eapply gen_for_complete; eauto.
  cbv beta. rewrite Ht, Hg.
  eapply gen_for_complete.
  - apply gen_for_ending. intros e' _.
    destruct (piece_eqb (cell (_board self) e') Empty); reflexivity.
  - exact He.
  - cbv beta. rewrite Hempty. now left.
Qed.

Lemma simple_moves_step_available (self : Board) (mv : string) :
  In mv (yielded (simple_moves self)) -> step_available self mv.
Proof.
  intros H. apply simple_moves_yielded in H
    as (i & tbl & ends & e & H1 & H2 & H3 & H4 & H5 & H6).
  exists i, tbl, ends, e. auto 10.
Qed.

Lemma filter_all {A : Type} (f : A -> bool) (l : list A) :
  Forall (fun x => f x = true) l -> filter f l = l.
Proof.
  induction 1 as [|a l Ha _ IH]; cbn [filter]; [reflexivity|].
  rewrite Ha, IH. reflexivity.
Qed.

Lemma chain_cleared (self : Board) captures square captured c :
  captures_ok captures = true ->
  chain_from self captures square captured c ->
  cleared_squares c = captured_squares c.
Proof.
  intros Hok Hch. unfold cleared_squares, captured_squares.
  rewrite filter_all; [reflexivity|].
  eapply Forall_impl; [|exact (chain_pairs _ _ _ _ _ Hok Hch)].
  cbv beta. tauto.
Qed.

Lemma chain_on_board (self : Board) captures square captured c :
  captures_ok captures = true -> 0 <= square < 64 ->
  chain_from self captures square captured c ->
  Forall (fun i => on_board i = true) c.
Proof.
  intros Hok Hsq Hch.
  pose proof (chain_squares _ _ Hok _ _ _ Hch) as Hall.
  destruct (chain_head _ _ _ _ _ Hch) as (jumps_ & o & e & rest & -> & _).
  cbn [tl] in Hall. constructor; [now apply on_board_range|].
  eapply Forall_impl; [|exact Hall]. cbv beta. tauto.
Qed.

Lemma length_pairwise {A : Type} (l : list A) :
  length (pairwise l) = (length l - 1)%nat.
Proof.
  induction l as [|a [|b l] IH]; [reflexivity|reflexivity|].
  change (pairwise (a :: b :: l)) with ((a, b) :: pairwise (b :: l)).
  cbn [length] in *. rewrite IH. lia.
Qed.

Lemma Forall_and {A : Type} (P Q : A -> Prop) (l : list A) :
  Forall P l -> Forall Q l -> Forall (fun x => P x /\ Q x) l.
Proof.
  induction 1 as [|a l Ha _ IH]; intros HQ; [constructor|].
  inversion HQ; subst. constructor; auto.
Qed.

(** The anatomy of a legal move, with everything the later proofs use. *)
Lemma legal_anatomy (self : Board) (mv : string) :
  length (_board self) = 64%nat ->
  In mv (yielded (legal_moves self)) ->
  exists first rest,
    parse_squares mv = Some (first :: rest) /\ rest <> []
    /\ 0 <= first < 64
    /\ lower (cell (_board self) first) = PIECES (turn self)
    /\ Forall (fun e => 0 <= e < 64 /\ cell (_board self) e = Empty) rest
    /\ Forall (fun o => 0 <= o < 64
                        /\ lower (cell (_board self) o)
                           = PIECES (negb (turn self)))
              (cleared_squares (first :: rest))
    /\ NoDup (cleared_squares (first :: rest))
    /\ (length (cleared_squares (first :: rest)) = 0%nat
        \/ length (cleared_squares (first :: rest)) = length rest).
Proof.
  intros Hlen Hin.
  destruct (legal_moves_cases self) as [E|[_ E]]; rewrite E in Hin.
  - apply jumps_yielded in Hin as (square & c & Hsq & Hc & ->).
    destruct (capture_chains_sound _ _ _ Hc) as (captures & Ht & Hok & Hch).
    apply find_all_pieces_spec in Hsq as [Hr Hp]. rewrite Hlen in Hr.
    pose proof (chain_on_board _ _ _ _ _ Hok Hr Hch) as Hon.
    destruct (chain_valid _ _ Hok _ _ _ Hch) as [Hempty Hopp].
    destruct (chain_captured _ _ Hok _ _ _ Hch) as [Hnd _].
    rewrite <- (chain_cleared _ _ _ _ _ Hok Hch) in Hopp, Hnd.
    assert (length (cleared_squares c) = (length c - 1)%nat) as Hcount.
    { rewrite (chain_cleared _ _ _ _ _ Hok Hch). unfold captured_squares.
      now rewrite length_map, length_pairwise. }
    destruct (chain_head _ _ _ _ _ Hch) as (jumps_ & o & e & rest & -> & _).
    exists square, (e :: rest). cbn [tl] in Hempty.
    split; [now apply parse_render|]. split; [discriminate|].
    split; [exact Hr|]. split; [exact Hp|]. split; [|split; [exact Hopp|]].
    + apply Forall_and; [|exact Hempty].
      inversion Hon; subst. eapply Forall_impl; [|eassumption].
      intros i. apply on_board_range.
    + split; [exact Hnd|]. right. rewrite Hcount. cbn [length]. lia.
  - apply simple_moves_yielded in Hin
      as (i & tbl & ends & e & Hi & Ht & Hg & He & Hempty & ->).
    destruct (moves_entry _ _ _ _ _ Ht Hg He) as (Ho & _ & Hcap).
    apply find_all_pieces_spec in Hi as [Hr Hp]. rewrite Hlen in Hr.
    assert (cleared_squares [i; e] = []) as Hcl.
    { unfold cleared_squares. cbn [pairwise filter]. now rewrite Hcap. }
    exists i, [e]. rewrite Hcl.
    split.
    { rewrite <- render_pair. apply parse_render.
      constructor; [now apply on_board_range|].
      constructor; [exact Ho|constructor]. }
    split; [discriminate|]. split; [exact Hr|]. split; [exact Hp|].
    split.
    { constructor; [|constructor]. split; [|exact Hempty].
      now apply on_board_range. }
    split; [constructor|]. split; [constructor|]. now left.
Qed.

(** X8. A text that legal_moves yields on a board of 64 cells parses to a
    list of at least two squares: the first holds a piece of the side to
    move, every later one is empty, and the squares that Board.move would
    clear between them hold opponent pieces. *)
Theorem legal_move_anatomy (self : Board) (mv : string) :
  length (_board self) = 64%nat ->
  In mv (yielded (legal_moves self)) ->
  exists first rest,
    parse_squares mv = Some (first :: rest) /\ rest <> []
    /\ lower (cell (_board self) first) = PIECES (turn self)
    /\ Forall (fun e => cell (_board self) e = Empty) rest
    /\ Forall (fun o => lower (cell (_board self) o)
                        = PIECES (negb (turn self)))
              (cleared_squares (first :: rest)).
Proof.
  intros Hlen Hin.
  destruct (legal_anatomy self mv Hlen Hin)
    as (first & rest & Hp & Hne & _ & Hf & He & Ho & _).
  exists first, rest. repeat split; try assumption.
  - eapply Forall_impl; [|exact He]. cbv beta. tauto.
  - eapply Forall_impl; [|exact Ho]. cbv beta. tauto.
Qed.

Lemma legal_move_anatomy_witness :
  exists first rest,
    parse_squares "b2d4f6" = Some (first :: rest) /\ rest <> []
    /\ lower (cell (_board double_jump_position) first) = PIECES WHITE
    /\ Forall (fun e => cell (_board double_jump_position) e = Empty) rest
    /\ Forall (fun o => lower (cell (_board double_jump_position) o)
                        = PIECES (negb WHITE))
              (cleared_squares (first :: rest)).
Proof.
  apply (legal_move_anatomy double_jump_position "b2d4f6"%string).
  - reflexivity.
  - vm_compute. left. reflexivity.
Defined.

(** X9. No capture is lost: on a well-formed board, when a piece of the
    side to move has a table entry over an opponent piece onto an empty
    square, legal_moves yields a chain that starts with that jump. *)
Theorem capture_is_offered (self : Board) (square : Z) captures jumps_
        (jump_over jump_end : Z) :
  wf_board self ->
  In square (_find_all_pieces self (PIECES (turn self))) ->
  _CAPTURES (cell (_board self) square) = Some captures ->
  dict_get square captures = Some jumps_ ->
  In (jump_over, jump_end) jumps_ ->
  lower (cell (_board self) jump_over) = PIECES (negb (turn self)) ->
  cell (_board self) jump_end = Empty ->
  exists rest,
    In (render (square :: jump_end :: rest)) (yielded (legal_moves self)).
Proof.
  intros Hwf Hsq Ht Hg Hi Ho He.
  assert (capture_available self) as Hav.
  { exists square, captures, jumps_, jump_over, jump_end. auto 10. }
  pose proof (capture_available_jumps self Hav) as Hj.
  destruct (legal_moves_cases self) as [E|[E _]]; [|contradiction].
  rewrite E.
  pose proof (all_captures_ok _ _ Ht) as Hok.
  assert (valid_jump self [] (jump_over, jump_end) = true) as Hv.
  { unfold valid_jump. rewrite Ho, He. cbn [existsb negb].
    destruct (turn self); reflexivity. }
  assert (has_key square captures = true) as Hk
      by (unfold has_key; now rewrite Hg).
  pose proof (jump_helper_total self captures Hok square Hk) as Hend.
  destruct (jump_helper_starts self captures _ _ _ _ _ _ Hg Hi Hv Hend)
    as [rest Hrest].
  exists rest. unfold jumps.
  eapply gen_for_complete; [now apply jumps_ending|exact Hsq|].
  unfold jumps_from. apply gen_map_yielded.
  exists (square :: jump_end :: rest). split; [|reflexivity].
  unfold capture_chains. rewrite Ht. exact Hrest.
Qed.

Lemma capture_is_offered_witness :
  exists rest,
    In (render (49 :: 35 :: rest))
       (yielded (legal_moves double_jump_position)).
Proof.
  apply (capture_is_offered double_jump_position 49
           (wh_dict _captures) [(42, 35)] 42 35).
  - split; reflexivity.
  - vm_compute. left. reflexivity.
  - reflexivity.
  - reflexivity.
  - left. reflexivity.
  - reflexivity.
  - reflexivity.
Defined.

Lemma no_capture_legal_moves (self : Board) (mv : string) :
  wf_board self -> ~ capture_available self ->
  (In mv (yielded (legal_moves self)) <-> step_available self mv).
Proof.
  intros Hwf Hno. pose proof (no_capture_no_jumps self Hwf Hno) as Hj.
  unfold legal_moves. rewrite Hj. split.
  - apply simple_moves_step_available.
  - now apply step_available_yielded.
Qed.

(** X10. When no capture is available on a well-formed board, legal_moves
    yields exactly the steps of the pieces of the side to move onto empty
    squares. *)
Theorem simple_moves_exact (self : Board) (mv : string) :
  wf_board self -> ~ capture_available self ->
  (In mv (yielded (legal_moves self)) <-> step_available self mv).
Proof. apply no_capture_legal_moves. Qed.

Lemma simple_moves_exact_witness :
  In "c3d4"%string (yielded (legal_moves Board_init))
  <-> step_available Board_init "c3d4".
Proof.
  apply (simple_moves_exact Board_init "c3d4"%string).
  - split; reflexivity.
  - intros H. apply (capture_available_jumps _ H). vm_compute. reflexivity.
Defined.

Lemma legal_moves_empty_iff (self : Board) :
  wf_board self ->
  (yielded (legal_moves self) = []
   <-> ~ capture_available self /\ forall mv, ~ step_available self mv).
Proof.
  intros Hwf. split.
  - intros Hnil. assert (~ capture_available self) as Hno.
    { intros Hav. pose proof (capture_available_jumps self Hav) as Hj.
      destruct (legal_moves_cases self) as [E|[E _]]; [|contradiction].
      rewrite E in Hnil. pose proof (jumps_ending self Hwf) as Hend.
      destruct (jumps self) as [ys en]. cbn in Hnil, Hend. congruence. }
    split; [exact Hno|]. intros mv Hstep.
    apply (no_capture_legal_moves self mv Hwf Hno) in Hstep.
    rewrite Hnil in Hstep. destruct Hstep.
  - intros [Hno Hstep].
    destruct (yielded (legal_moves self)) as [|mv l] eqn:E; [reflexivity|].
    exfalso. apply (Hstep mv).
    apply (no_capture_legal_moves self mv Hwf Hno). rewrite E. now left.
Qed.

(** X11. On a well-formed board is_game_over raises nothing, and it
    returns True exactly when the side to move has neither a capture nor a
    step onto an empty square; a side without pieces is such a case. *)
Theorem game_over_iff (self : Board) :
  wf_board self ->
  (is_game_over self = inl true
   <-> ~ capture_available self /\ forall mv, ~ step_available self mv)
  /\ (is_game_over self = inl true \/ is_game_over self = inl false)
  /\ (_find_all_pieces self (PIECES (turn self)) = [] ->
      is_game_over self = inl true).
Proof.
  intros Hwf. pose proof (legal_moves_ending self Hwf) as Hend.
  pose proof (legal_moves_empty_iff self Hwf) as Hiff.
  unfold is_game_over.
  destruct (legal_moves self) as [[|y ys] en]; cbn [ending snd] in Hend;
    subst en; cbn [yielded fst] in Hiff.
  - repeat split; auto; now apply Hiff.
  - split; [|split]; [|now right|].
    + split; [discriminate|]. intros H. apply Hiff in H. discriminate H.
    + intros Hnone. exfalso.
      assert (~ capture_available self /\ forall mv, ~ step_available self mv)
        as H; [|apply Hiff in H; discriminate H].
      split.
      * intros (sq & ? & ? & ? & ? & Hsq & _). rewrite Hnone in Hsq.
        destruct Hsq.
      * intros mv (i & ? & ? & ? & Hi & _). rewrite Hnone in Hi.
        destruct Hi.
Qed.

Lemma game_over_iff_witness :
  (is_game_over Board_init = inl true
   <-> ~ capture_available Board_init
       /\ forall mv, ~ step_available Board_init mv)
  /\ (is_game_over Board_init = inl true
      \/ is_game_over Board_init = inl false)
  /\ (_find_all_pieces Board_init (PIECES (turn Board_init)) = [] ->
      is_game_over Board_init = inl true).
Proof.
  apply (game_over_iff Board_init). split; reflexivity.
Defined.

(** X12. A chain never jumps over more pieces than the opponent has: on a
    board of 64 cells a generated chain of n squares makes n - 1 jumps, and
    n - 1 is at most the number of opponent pieces. *)
Theorem chain_length_bound (self : Board) (square : Z) (c : list Z) :
  length (_board self) = 64%nat ->
  In c (yielded (capture_chains self square)) ->
  (length c
   <= 1 + length (_find_all_pieces self (PIECES (negb (turn self)))))%nat.
Proof.
  intros Hlen Hin.
  destruct (capture_chains_sound _ _ _ Hin) as (captures & Ht & Hok & Hch).
  destruct (chain_captured _ _ Hok _ _ _ Hch) as [Hnd _].
  destruct (chain_valid _ _ Hok _ _ _ Hch) as [_ Hopp].
  assert (incl (captured_squares c)
               (_find_all_pieces self (PIECES (negb (turn self))))) as Hincl.
  { intros o Ho. rewrite Forall_forall in Hopp.
    destruct (Hopp o Ho) as [Hr Hp].
    apply find_all_pieces_complete; [rewrite Hlen; lia|exact Hp]. }
  pose proof (NoDup_incl_length Hnd Hincl) as Hle.
  unfold captured_squares in Hle. rewrite length_map, length_pairwise in Hle.
  lia.
Qed.

Lemma chain_length_bound_witness :
  (length [42; 60; 46]
   <= 1 + length (_find_all_pieces king_position (PIECES (negb WHITE))))%nat.
Proof.
  apply (chain_length_bound king_position 42 [42; 60; 46]).
  - reflexivity.
  - vm_compute. left. reflexivity.
Defined.

(** ** Reading cells after writes *)

Lemma nth_list_set_hit (board : list piece) (m : nat) (v : piece) :
  (m < length board)%nat -> nth m (list_set board m v) Empty = v.
Proof.
  revert m. induction board as [|c r IH]; intros [|m] H; cbn in *;
    try lia; auto. apply IH. lia.
Qed.

Lemma nth_list_set_clear (board : list piece) (m : nat) :
  nth m (list_set board m Empty) Empty = Empty.
Proof.
  revert m. induction board as [|c r IH]; intros [|m]; cbn; auto.
Qed.

Lemma length_set_cell (board : list piece) (i : Z) (v : piece) :
  length (set_cell board i v) = length board.
Proof. apply length_list_set. Qed.

Lemma cell_set_same (board : list piece) (i : Z) (v : piece) :
  0 <= i < Z.of_nat (length board) -> cell (set_cell board i v) i = v.
Proof. intros H. apply nth_list_set_hit. lia. Qed.

Lemma cell_set_other (board : list piece) (i j : Z) (v : piece) :
  0 <= i -> 0 <= j -> j <> i -> cell (set_cell board i v) j = cell board j.
Proof. intros Hi Hj Hne. apply nth_list_set_other. lia. Qed.

Lemma capture_steps_clear (pairs : list (Z * Z)) :
  forall board,
    fold_left capture_step pairs board
    = clear_all (map midpoint (filter is_capture pairs)) board.
Proof.
  induction pairs as [|[before after] pairs IH]; intros board;
    [reflexivity|].
  cbn [fold_left filter]. rewrite IH. unfold capture_step, is_capture.
  destruct ((Z.abs (before - after) =? 18) || (Z.abs (before - after) =? 14));
    reflexivity.
Qed.

Lemma length_clear_all (os : list Z) :
  forall board, length (clear_all os board) = length board.
Proof.
  induction os as [|o os IH]; intros board; [reflexivity|].
  cbn [clear_all fold_left]. fold (clear_all os (set_cell board o Empty)).
  now rewrite IH, length_set_cell.
Qed.

Lemma cell_clear_all (os : list Z) :
  forall board j,
    0 <= j -> (forall o, In o os -> 0 <= o) ->
    cell (clear_all os board) j
    = if mem_z j os then Empty else cell board j.
Proof.
  induction os as [|o os IH]; intros board j Hj Hos; [reflexivity|].
  cbn [clear_all fold_left]. fold (clear_all os (set_cell board o Empty)).
  rewrite IH by (auto; intros o' Ho'; apply Hos; now right).
  unfold mem_z. cbn [existsb]. fold (mem_z j os).
  destruct (mem_z j os); [now rewrite orb_true_r|]. rewrite orb_false_r.
  destruct (Z.eqb_spec j o) as [->|Hne].
  - apply nth_list_set_clear.
  - apply cell_set_other; auto. apply Hos. now left.
Qed.

(** ** What a successful move leaves on the board *)

Lemma move_inv (self : Board) (mv : string) (self' : Board) :
  length (_board self) = 64%nat ->
  move self mv = (self', None) ->
  exists first rest,
    (parse_squares mv = Some (first :: rest) /\ rest <> []
     /\ 0 <= first < 64
     /\ lower (cell (_board self) first) = PIECES (turn self)
     /\ Forall (fun e => 0 <= e < 64 /\ cell (_board self) e = Empty) rest
     /\ Forall (fun o => 0 <= o < 64
                         /\ lower (cell (_board self) o)
                            = PIECES (negb (turn self)))
               (cleared_squares (first :: rest))
     /\ NoDup (cleared_squares (first :: rest))
     /\ (length (cleared_squares (first :: rest)) = 0%nat
         \/ length (cleared_squares (first :: rest)) = length rest))
    /\ self' =
       {| _board :=
            set_cell
              (set_cell (clear_all (cleared_squares (first :: rest))
                                   (_board self)) first Empty)
              (last (first :: rest) first)
              (crowned self (last (first :: rest) first)
                       (cell (_board self) first));
          _half_moves := _half_moves self + 1;
          turn := negb (turn self) |}.
Proof.
  intros Hlen. unfold move.
  destruct (gen_contains mv (legal_moves self)) as [[|]|e] eqn:Hc;
    try discriminate.
  apply gen_contains_found in Hc.
  destruct (legal_anatomy self mv Hlen Hc) as (first & rest & Hp & Hrest).
  rewrite Hp. cbn [apply_squares]. intros [= <-].
  exists first, rest. split; [auto|].
  rewrite capture_steps_clear. reflexivity.
Qed.

Lemma Forall_In {A : Type} (P : A -> Prop) (l : list A) (x : A) :
  Forall P l -> In x l -> P x.
Proof. intros H. rewrite Forall_forall in H. apply H. Qed.

Lemma move_cells (self : Board) (mv : string) (self' : Board) :
  length (_board self) = 64%nat ->
  move self mv = (self', None) ->
  exists first rest,
    parse_squares mv = Some (first :: rest)
    /\ length (_board self') = 64%nat
    /\ lower (cell (_board self) first) = PIECES (turn self)
    /\ cell (_board self') first = Empty
    /\ cell (_board self') (last (first :: rest) first)
       = crowned self (last (first :: rest) first) (cell (_board self) first)
    /\ (forall o, In o (cleared_squares (first :: rest)) ->
                  cell (_board self') o = Empty)
    /\ (forall j, 0 <= j -> j <> first ->
                  j <> last (first :: rest) first ->
                  ~ In j (cleared_squares (first :: rest)) ->
                  cell (_board self') j = cell (_board self) j).
Proof.
  intros Hlen Hmove.
  destruct (move_inv self mv self' Hlen Hmove)
    as (first & rest & (Hp & Hne & Hf & Hpf & He & Ho & Hnd & _) & ->).
  exists first, rest. cbn [_board].
  set (end_ := last (first :: rest) first).
  set (cl := cleared_squares (first :: rest)) in *.
  set (X := clear_all cl (_board self)).
  assert (In end_ rest) as Hend by (now apply last_in_rest).
  destruct (Forall_In _ _ _ He Hend) as [Her Hee].
  assert (length X = 64%nat) as HlenX
      by (unfold X; now rewrite length_clear_all).
  assert (forall o, In o cl -> 0 <= o) as Hpos.
  { intros o Hin. now destruct (Forall_In _ _ _ Ho Hin). }
  assert (end_ <> first) as Hef.
  { intros E. rewrite E in Hee. rewrite Hee in Hpf.
    destruct (turn self); discriminate. }
  assert (~ In end_ cl) as Hec.
  { intros Hin. destruct (Forall_In _ _ _ Ho Hin) as [_ Hopp].
    rewrite Hee in Hopp. destruct (turn self); discriminate. }
  split; [exact Hp|]. split; [now rewrite !length_set_cell|].
  split; [exact Hpf|]. split; [|split; [|split]].
  - rewrite cell_set_other by lia. apply cell_set_same.
    rewrite HlenX. lia.
  - apply cell_set_same. rewrite length_set_cell, HlenX. lia.
  - intros o Hin. destruct (Forall_In _ _ _ Ho Hin) as [Hor _].
    rewrite cell_set_other; [|lia|lia|intros ->; contradiction].
    destruct (Z.eq_dec o first) as [->|Hof].
    + apply cell_set_same. rewrite HlenX. lia.
    + rewrite cell_set_other by lia. unfold X.
      rewrite cell_clear_all by (auto; lia).
      now rewrite (proj2 (mem_z_In o cl) Hin).
  - intros j Hj Hjf Hje Hjc.
    rewrite !cell_set_other by lia. unfold X.
    rewrite cell_clear_all by auto.
    destruct (mem_z j cl) eqn:E; [|reflexivity].
    apply mem_z_In in E. contradiction.
Qed.

(** X13. What a successful Board.move leaves on a board of 64 cells, cell
    by cell: the first square of the move is empty, the last holds the
    moved piece (crowned if a man arrives on the far row), the squares
    between consecutive squares of a capture are empty, and every other
    cell is as before. *)
Theorem move_effect (self : Board) (mv : string) (self' : Board) :
  length (_board self) = 64%nat ->
  move self mv = (self', None) ->
  exists first rest,
    parse_squares mv = Some (first :: rest)
    /\ cell (_board self') first = Empty
    /\ cell (_board self') (last (first :: rest) first)
       = crowned self (last (first :: rest) first) (cell (_board self) first)
    /\ (forall o, In o (cleared_squares (first :: rest)) ->
                  cell (_board self') o = Empty)
    /\ (forall j, 0 <= j -> j <> first ->
                  j <> last (first :: rest) first ->
                  ~ In j (cleared_squares (first :: rest)) ->
                  cell (_board self') j = cell (_board self) j).
Proof.
  intros Hlen Hmove.
  destruct (move_cells self mv self' Hlen Hmove)
    as (first & rest & H1 & _ & _ & H2).
  exists first, rest. auto.
Qed.

Lemma move_effect_witness :
  exists first rest,
    parse_squares "c3e1g3" = Some (first :: rest)
    /\ cell (_board (fst (move king_position "c3e1g3"))) first = Empty
    /\ cell (_board (fst (move king_position "c3e1g3")))
            (last (first :: rest) first)
       = crowned king_position (last (first :: rest) first)
                 (cell (_board king_position) first)
    /\ (forall o, In o (cleared_squares (first :: rest)) ->
                  cell (_board (fst (move king_position "c3e1g3"))) o = Empty)
    /\ (forall j, 0 <= j -> j <> first ->
                  j <> last (first :: rest) first ->
                  ~ In j (cleared_squares (first :: rest)) ->
                  cell (_board (fst (move king_position "c3e1g3"))) j
                  = cell (_board king_position) j).
Proof.
  apply (move_effect king_position "c3e1g3"%string).
  - reflexivity.
  - vm_compute. reflexivity.
Defined.

(** X14. The piece that a successful Board.move puts on the last square
    has the colour of the side that moved, and it is a king exactly when
    the moved piece was one or the last square is on the far row
    (row 0 when White moved, row 7 when Black moved): no piece is ever
    uncrowned, and no man is left standing on the far row by its move. *)
Theorem move_crowns (self : Board) (mv : string) (self' : Board) :
  length (_board self) = 64%nat ->
  move self mv = (self', None) ->
  exists first rest,
    parse_squares mv = Some (first :: rest)
    /\ lower (cell (_board self') (last (first :: rest) first))
       = PIECES (turn self)
    /\ _is_king (cell (_board self') (last (first :: rest) first))
       = _is_king (cell (_board self) first)
         || (Z.shiftr (last (first :: rest) first) 3
             =? 7 * Z.b2z (negb (turn self))).
Proof.
  intros Hlen Hmove.
  destruct (move_cells self mv self' Hlen Hmove)
    as (first & rest & H1 & _ & Hpf & _ & H2 & _).
  exists first, rest. split; [exact H1|]. rewrite H2. unfold crowned.
  destruct (Z.shiftr (last (first :: rest) first) 3
            =? 7 * Z.b2z (negb (turn self)));
    destruct (cell (_board self) first), (turn self);
    try discriminate Hpf; split; reflexivity.
Qed.

Lemma move_crowns_witness :
  exists first rest,
    parse_squares "b6d8" = Some (first :: rest)
    /\ lower (cell (_board (fst (move crowning_position "b6d8")))
                   (last (first :: rest) first))
       = PIECES WHITE
    /\ _is_king (cell (_board (fst (move crowning_position "b6d8")))
                      (last (first :: rest) first))
       = _is_king (cell (_board crowning_position) first)
         || (Z.shiftr (last (first :: rest) first) 3
             =? 7 * Z.b2z (negb WHITE)).
Proof.
  apply (move_crowns crowning_position "b6d8"%string).
  - reflexivity.
  - vm_compute. reflexivity.
Defined.

(** ** Counting pieces *)

Lemma pieces_from_count (colour : piece) (l : list piece) :
  forall k,
    length (flat_map (fun '(i, v) => if piece_eqb (lower v) colour
                                     then [i] else [])
                     (enumerate_from k l))
    = count_if (of_colour colour) l.
Proof.
  unfold count_if, of_colour.
  induction l as [|a l IH]; intros k; [reflexivity|].
  cbn [enumerate_from flat_map filter]. rewrite length_app, IH.
  destruct (piece_eqb (lower a) colour); reflexivity.
Qed.

Lemma find_all_pieces_count (self : Board) (colour : piece) :
  length (_find_all_pieces self colour)
  = count_if (of_colour colour) (_board self).
Proof. apply pieces_from_count. Qed.

Lemma count_list_set (p : piece -> bool) (board : list piece) :
  forall n v,
    (n < length board)%nat ->
    (count_if p (list_set board n v)
     + (if p (nth n board Empty) then 1 else 0)
     = count_if p board + (if p v then 1 else 0))%nat.
Proof.
  unfold count_if.
  induction board as [|c r IH]; intros [|n] v H; cbn [length] in H;
    try lia; cbn [list_set nth filter].
  - destruct (p c), (p v); cbn [length]; lia.
  - specialize (IH n v ltac:(lia)).
    destruct (p c); cbn [length]; lia.
Qed.

Lemma count_set_cell (p : piece -> bool) (board : list piece) (i : Z)
      (v : piece) :
  0 <= i < Z.of_nat (length board) ->
  (count_if p (set_cell board i v)
   + (if p (cell board i) then 1 else 0)
   = count_if p board + (if p v then 1 else 0))%nat.
Proof. intros H. apply count_list_set. lia. Qed.

Lemma count_clear_all (p : piece -> bool) (os : list Z) :
  p Empty = false ->
  forall board,
    NoDup os ->
    (forall o, In o os -> 0 <= o < Z.of_nat (length board)) ->
    (count_if p (clear_all os board)
     + length (filter (fun o => p (cell board o)) os)
     = count_if p board)%nat.
Proof.
  intros Hp. induction os as [|o os IH]; intros board Hnd Hr.
  - unfold clear_all. cbn [fold_left filter length]. lia.
  - inversion Hnd as [|? ? Hnot Hnd']; subst.
    cbn [clear_all fold_left]. fold (clear_all os (set_cell board o Empty)).
    assert (0 <= o < Z.of_nat (length board)) as Ho
        by (apply Hr; now left).
    specialize (IH (set_cell board o Empty) Hnd').
    rewrite length_set_cell in IH.
    specialize (IH (fun o' H => Hr o' (or_intror H))).
    assert (filter (fun o' => p (cell (set_cell board o Empty) o')) os
            = filter (fun o' => p (cell board o')) os) as E.
    { apply filter_ext_in. intros o' Ho'.
      rewrite cell_set_other; [reflexivity|lia| |].
      - apply (Hr o' (or_intror Ho')).
      - intros ->. contradiction. }
    rewrite E in IH.
    pose proof (count_set_cell p board o Empty Ho) as Hc. rewrite Hp in Hc.
    cbn [filter]. destruct (p (cell board o)); cbn [length]; lia.
Qed.

Lemma filter_none {A : Type} (f : A -> bool) (l : list A) :
  (forall x, In x l -> f x = false) -> filter f l = [].
Proof.
  induction l as [|a l IH]; intros H; [reflexivity|].
  cbn [filter]. rewrite (H a (or_introl eq_refl)).
  apply IH. intros x Hx. apply H. now right.
Qed.

Lemma of_colour_sides (colour : bool) (v : piece) :
  lower v = PIECES colour ->
  of_colour (PIECES colour) v = true
  /\ of_colour (PIECES (negb colour)) v = false.
Proof.
  unfold of_colour. intros ->. destruct colour; split; reflexivity.
Qed.

Lemma move_counts (self : Board) (mv : string) (self' : Board) :
  length (_board self) = 64%nat ->
  move self mv = (self', None) ->
  exists first rest,
    parse_squares mv = Some (first :: rest)
    /\ length (_find_all_pieces self' (PIECES (turn self)))
       = length (_find_all_pieces self (PIECES (turn self)))
    /\ (length (_find_all_pieces self' (PIECES (negb (turn self))))
        + length (cleared_squares (first :: rest))
        = length (_find_all_pieces self (PIECES (negb (turn self)))))%nat
    /\ (length (cleared_squares (first :: rest)) = 0%nat
        \/ length (cleared_squares (first :: rest)) = length rest).
Proof.
  intros Hlen Hmove.
  destruct (move_inv self mv self' Hlen Hmove)
    as (first & rest & (Hp & Hne & Hf & Hpf & He & Ho & Hnd & Hcount) & ->).
  exists first, rest. split; [exact Hp|].
  rewrite !find_all_pieces_count. cbn [_board].
  set (end_ := last (first :: rest) first).
  set (cl := cleared_squares (first :: rest)) in *.
  set (X := clear_all cl (_board self)).
  set (pm := of_colour (PIECES (turn self))).
  set (po := of_colour (PIECES (negb (turn self)))).
  assert (In end_ rest) as Hend by (now apply last_in_rest).
  destruct (Forall_In _ _ _ He Hend) as [Her Hee].
  assert (length X = 64%nat) as HlenX
      by (unfold X; now rewrite length_clear_all).
  assert (forall o, In o cl -> 0 <= o < Z.of_nat (length (_board self)))
    as Hrange.
  { intros o Hin. destruct (Forall_In _ _ _ Ho Hin). lia. }
  assert (forall o, In o cl -> 0 <= o) as Hpos
      by (intros o Hin; specialize (Hrange o Hin); lia).
  assert (end_ <> first) as Hef.
  { intros E. rewrite E in Hee. rewrite Hee in Hpf.
    destruct (turn self); discriminate. }
  assert (~ In end_ cl) as Hec.
  { intros Hin. destruct (Forall_In _ _ _ Ho Hin) as [_ Hopp].
    rewrite Hee in Hopp. destruct (turn self); discriminate. }
  assert (~ In first cl) as Hfc.
  { intros Hin. destruct (Forall_In _ _ _ Ho Hin) as [_ Hopp].
    rewrite Hpf in Hopp. destruct (turn self); discriminate. }
  (* the cells read at the time of each write *)
  assert (cell X first = cell (_board self) first) as HXf.
  { unfold X. rewrite cell_clear_all by (auto; lia).
    destruct (mem_z first cl) eqn:E; [|reflexivity].
    apply mem_z_In in E. contradiction. }
  assert (cell (set_cell X first Empty) end_ = Empty) as HXe.
  { rewrite cell_set_other by lia. unfold X.
    rewrite cell_clear_all by (auto; lia).
    destruct (mem_z end_ cl); [reflexivity|exact Hee]. }
  (* the clearing loop *)
  assert (filter (fun o => pm (cell (_board self) o)) cl = []) as Hfm.
  { apply filter_none. intros o Hin.
    destruct (Forall_In _ _ _ Ho Hin) as [_ Hopp].
    pose proof (of_colour_sides (negb (turn self)) _ Hopp) as [_ H].
    now rewrite negb_involutive in H. }
  assert (filter (fun o => po (cell (_board self) o)) cl = cl) as Hfo.
  { apply filter_all. rewrite Forall_forall. intros o Hin.
    destruct (Forall_In _ _ _ Ho Hin) as [_ Hopp].
    now destruct (of_colour_sides (negb (turn self)) _ Hopp). }
  assert (pm Empty = false) as HpmE by (unfold pm; now destruct (turn self)).
  assert (po Empty = false) as HpoE by (unfold po; now destruct (turn self)).
  pose proof (count_clear_all pm cl HpmE (_board self) Hnd Hrange) as C1m.
  pose proof (count_clear_all po cl HpoE (_board self) Hnd Hrange) as C1o.
  rewrite Hfm in C1m. rewrite Hfo in C1o. cbn [length] in C1m.
  fold X in C1m, C1o.
  (* clearing the first square *)
  assert (0 <= first < Z.of_nat (length X)) as Hfr by (rewrite HlenX; lia).
  pose proof (count_set_cell pm X first Empty Hfr) as C2m.
  pose proof (count_set_cell po X first Empty Hfr) as C2o.
  rewrite HXf in C2m, C2o.
  destruct (of_colour_sides (turn self) _ Hpf) as [Hm1 Hm2].
  fold pm in Hm1. fold po in Hm2. rewrite Hm1 in C2m. rewrite Hm2 in C2o.
  rewrite HpoE in C2o.
  rewrite HpmE in C2m.
  (* writing the last square *)
  assert (0 <= end_ < Z.of_nat (length (set_cell X first Empty))) as Her'
      by (rewrite length_set_cell, HlenX; lia).
  set (piece' := crowned self end_ (cell (_board self) first)).
  assert (lower piece' = PIECES (turn self)) as Hp'.
  { unfold piece', crowned.
    destruct (Z.shiftr end_ 3 =? 7 * Z.b2z (negb (turn self)));
      destruct (cell (_board self) first), (turn self);
      try discriminate Hpf; reflexivity. }
  pose proof (count_set_cell pm _ end_ piece' Her') as C3m.
  pose proof (count_set_cell po _ end_ piece' Her') as C3o.
  rewrite HXe in C3m, C3o. rewrite HpmE in C3m. rewrite HpoE in C3o.
  destruct (of_colour_sides (turn self) _ Hp') as [Hq1 Hq2].
  fold pm in Hq1. fold po in Hq2. rewrite Hq1 in C3m. rewrite Hq2 in C3o.
  split; [lia|]. split; [lia|exact Hcount].
Qed.

(** X15. A successful Board.move on a board of 64 cells keeps the number
    of pieces of the side that moved, and takes from the other side as
    many pieces as the move clears squares: none for a step, one for each
    jump of a chain. *)
Theorem move_piece_counts (self : Board) (mv : string) (self' : Board) :
  length (_board self) = 64%nat ->
  move self mv = (self', None) ->
  exists first rest,
    parse_squares mv = Some (first :: rest)
    /\ length (_find_all_pieces self' (PIECES (turn self)))
       = length (_find_all_pieces self (PIECES (turn self)))
    /\ (length (_find_all_pieces self' (PIECES (negb (turn self))))
        + length (cleared_squares (first :: rest))
        = length (_find_all_pieces self (PIECES (negb (turn self)))))%nat
    /\ (length (cleared_squares (first :: rest)) = 0%nat
        \/ length (cleared_squares (first :: rest)) = length rest).
Proof. apply move_counts. Qed.

Lemma move_piece_counts_witness :
  exists first rest,
    parse_squares "c3e1g3" = Some (first :: rest)
    /\ length (_find_all_pieces (fst (move king_position "c3e1g3"))
                                (PIECES WHITE))
       = length (_find_all_pieces king_position (PIECES WHITE))
    /\ (length (_find_all_pieces (fst (move king_position "c3e1g3"))
                                 (PIECES (negb WHITE)))
        + length (cleared_squares (first :: rest))
        = length (_find_all_pieces king_position (PIECES (negb WHITE))))%nat
    /\ (length (cleared_squares (first :: rest)) = 0%nat
        \/ length (cleared_squares (first :: rest)) = length rest).
Proof.
  apply (move_piece_counts king_position "c3e1g3"%string).
  - reflexivity.
  - vm_compute. reflexivity.
Defined.

(** ** Games from a new board *)

Lemma move_keeps_wf (self : Board) (mv : string) (self' : Board) :
  wf_board self -> move self mv = (self', None) -> wf_board self'.
Proof.
  intros Hwf. unfold move.
  destruct (gen_contains mv (legal_moves self)) as [[|]|e] eqn:Hc;
    try discriminate.
  apply gen_contains_found in Hc.
  destruct (legal_move_parses self mv (proj1 Hwf) Hc)
    as (squares & -> & Hsq & _).
  now apply apply_squares_wf.
Qed.

Lemma move_outcomes_wf (self : Board) (mv : string) :
  wf_board self ->
  snd (move self mv) = None \/ snd (move self mv) = Some IllegalMove.
Proof.
  intros Hwf. pose proof (legal_moves_ending self Hwf) as Hend.
  unfold move.
  destruct (gen_contains_spec mv _ Hend) as [[-> Hin]|[-> Hnot]].
  - destruct (legal_move_parses self mv (proj1 Hwf) Hin)
      as (squares & -> & Hsq & _).
    left. now apply apply_legal_squares.
  - right. reflexivity.
Qed.

Lemma move_turn_ply (self : Board) (mv : string) (self' : Board) :
  move self mv = (self', None) ->
  _half_moves self' = _half_moves self + 1
  /\ turn self' = negb (turn self).
Proof.
  unfold move.
  destruct (gen_contains mv (legal_moves self)) as [[|]|e]; try discriminate.
  destruct (parse_squares mv) as [[|first rest]|]; try discriminate.
  cbn [apply_squares]. intros [= <-]. split; reflexivity.
Qed.

Lemma reached_invariant (n : nat) (self : Board) :
  reached n self ->
  wf_board self
  /\ _half_moves self = Z.of_nat n
  /\ turn self = Nat.even n
  /\ (length (_find_all_pieces self WH_PIECE) <= 12)%nat
  /\ (length (_find_all_pieces self BK_PIECE) <= 12)%nat.
Proof.
  induction 1 as [|n self mv self' Hr IH Hmove].
  - repeat split; vm_compute; try reflexivity; lia.
  - destruct IH as (Hwf & Hply & Hturn & Hw & Hb).
    destruct (move_turn_ply _ _ _ Hmove) as [Hp' Ht'].
    destruct (move_counts self mv self' (proj1 Hwf) Hmove)
      as (first & rest & _ & Hm & Ho & _).
    split; [eapply move_keeps_wf; eauto|].
    split; [lia|]. split.
    { rewrite Ht', Hturn. now rewrite Nat.even_succ, <- Nat.negb_even. }
    destruct (turn self); cbn [PIECES negb] in Hm, Ho; split; lia.
Qed.

(** X16. In a game played from a new board by calls of Board.move that
    raise nothing: the board stays well formed, the ply counter is the
    number of moves made, White is to move exactly when that number is
    even, neither side ever has more than 12 pieces, legal_moves never
    raises, and Board.move raises nothing but the illegal-move error. *)
Theorem game_invariants (n : nat) (self : Board) :
  reached n self ->
  wf_board self
  /\ _half_moves self = Z.of_nat n
  /\ turn self = Nat.even n
  /\ (length (_find_all_pieces self WH_PIECE) <= 12)%nat
  /\ (length (_find_all_pieces self BK_PIECE) <= 12)%nat
  /\ ending (legal_moves self) = None
  /\ forall mv,
       snd (move self mv) = None \/ snd (move self mv) = Some IllegalMove.
Proof.
  intros Hr.
  destruct (reached_invariant n self Hr) as (Hwf & H1 & H2 & H3 & H4).
  repeat split; try assumption; try apply Hwf.
  - now apply legal_moves_ending.
  - intros mv. now apply move_outcomes_wf.
Qed.

Lemma game_invariants_witness :
  wf_board (fst (move Board_init "c3d4"))
  /\ _half_moves (fst (move Board_init "c3d4")) = Z.of_nat 1
  /\ turn (fst (move Board_init "c3d4")) = Nat.even 1
  /\ (length (_find_all_pieces (fst (move Board_init "c3d4")) WH_PIECE)
      <= 12)%nat
  /\ (length (_find_all_pieces (fst (move Board_init "c3d4")) BK_PIECE)
      <= 12)%nat
  /\ ending (legal_moves (fst (move Board_init "c3d4"))) = None
  /\ forall mv,
       snd (move (fst (move Board_init "c3d4")) mv) = None
       \/ snd (move (fst (move Board_init "c3d4")) mv) = Some IllegalMove.
Proof.
  apply (game_invariants 1).
  apply (reached_move 0 Board_init "c3d4"%string).
  - apply reached_init.
  - vm_compute. reflexivity.
Defined.

(** ** The exceptions of Board.move *)

Lemma gen_for_raises {A B : Type} (l : list A) (body : A -> gen B) (e : exn) :
  ending (gen_for l body) = Some e ->
  exists a, In a l /\ ending (body a) = Some e.
Proof.
  induction l as [|a l IH]; cbn [gen_for]; [discriminate|].
  unfold gen_seq. destruct (ending (body a)) as [e'|] eqn:E.
  - rewrite E. intros [= <-]. exists a. split; [now left|exact E].
  - cbn [ending snd]. intros H. destruct (IH H) as (a' & Ha' & He').
    exists a'. split; [now right|exact He'].
Qed.

Lemma jump_helper_raises (self : Board) captures (fuel : nat) :
  forall square captured e,
    ending (jump_helper self captures fuel square captured) = Some e ->
    e = KeyError \/ e = FuelExhausted.
Proof.
  induction fuel as [|fuel IH]; intros square captured e; cbn [jump_helper].
  - intros [= <-]. now right.
  - destruct (dict_get square captures) as [jumps_|].
    + intros H. apply gen_for_raises in H as ([o e'] & _ & H).
      destruct (valid_jump self captured (o, e')); [|discriminate H].
      destruct (stops_here self square); [discriminate H|].
      specialize (IH e' (o :: captured) e).
      destruct (jump_helper self captures fuel e' (o :: captured))
        as [[|y ys] [ex|]]; cbn in H; try discriminate H;
        apply IH; exact H.
    + intros [= <-]. now left.
Qed.

Lemma legal_moves_raises (self : Board) (e : exn) :
  ending (legal_moves self) = Some e -> e = KeyError.
Proof.
  assert (Hj : ending (jumps self) = Some e -> e = KeyError).
  { unfold jumps. intros H. apply gen_for_raises in H as (square & _ & H).
    pose proof (capture_chains_fuel self square) as Hfuel.
    unfold jumps_from, gen_map in H. cbn [ending snd] in H.
    unfold capture_chains in *.
    destruct (_CAPTURES (cell (_board self) square)) as [captures|].
    - destruct (jump_helper_raises _ _ _ _ _ _ H) as [E | E]; subst e;
        [reflexivity|congruence].
    - injection H as E. now rewrite <- E. }
  assert (Hs : ending (simple_moves self) = Some e -> e = KeyError).
  { unfold simple_moves. intros H. apply gen_for_raises in H as (i & _ & H).
    destruct (_MOVES (cell (_board self) i)) as [tbl|];
      [|injection H as E; now rewrite <- E].
    destruct (dict_get i tbl) as [ends|];
      [|injection H as E; now rewrite <- E].
    apply gen_for_raises in H as (e' & _ & H).
    destruct (piece_eqb (cell (_board self) e') Empty); discriminate H. }
  unfold legal_moves. destruct (jumps self) as [[|y ys] [ex|]]; auto.
Qed.

(** X17. The exceptions of Board.move on any board of 64 cells, also one
    with pieces on light squares: a text that legal_moves yields is
    applied without error, even when the generator would raise later; the
    call raises nothing but the illegal-move error or the KeyError of the
    generator, the latter only for a text not yielded before it; and
    whenever it raises, the board object is left as it was. *)
Theorem move_raises (self : Board) (mv : string) :
  length (_board self) = 64%nat ->
  (In mv (yielded (legal_moves self)) -> snd (move self mv) = None)
  /\ (snd (move self mv) = None
      \/ snd (move self mv) = Some IllegalMove
      \/ snd (move self mv) = Some KeyError)
  /\ (snd (move self mv) = Some KeyError ->
      ending (legal_moves self) = Some KeyError
      /\ ~ In mv (yielded (legal_moves self)))
  /\ (snd (move self mv) <> None -> fst (move self mv) = self).
Proof.
  intros Hlen. unfold move, gen_contains.
  destruct (existsb (String.eqb mv) (yielded (legal_moves self))) eqn:E.
  - assert (In mv (yielded (legal_moves self))) as Hin.
    { apply existsb_exists in E as (x & Hx & Heq).
      apply String.eqb_eq in Heq. now subst. }
    destruct (legal_move_parses self mv Hlen Hin) as (squares & -> & Hsq & _).
    rewrite (apply_legal_squares self squares Hsq).
    repeat split; auto; try discriminate. intros H. now contradiction H.
  - assert (~ In mv (yielded (legal_moves self))) as Hnot.
    { intros Hin.
      assert (existsb (String.eqb mv) (yielded (legal_moves self)) = true);
        [|congruence].
      apply existsb_exists. exists mv. split; [exact Hin|].
      apply String.eqb_refl. }
    pose proof (legal_moves_raises self) as Hr.
    destruct (ending (legal_moves self)) as [e|]; cbn [fst snd].
    + rewrite (Hr e eq_refl). repeat split; auto. contradiction.
    + repeat split; auto; try discriminate. contradiction.
Qed.

Lemma move_raises_witness :
  (In "c3d4"%string (yielded (legal_moves Board_init)) ->
   snd (move Board_init "c3d4") = None)
  /\ (snd (move Board_init "c3d4") = None
      \/ snd (move Board_init "c3d4") = Some IllegalMove
      \/ snd (move Board_init "c3d4") = Some KeyError)
  /\ (snd (move Board_init "c3d4") = Some KeyError ->
      ending (legal_moves Board_init) = Some KeyError
      /\ ~ In "c3d4"%string (yielded (legal_moves Board_init)))
  /\ (snd (move Board_init "c3d4") <> None ->
      fst (move Board_init "c3d4") = Board_init).
Proof.
  apply (move_raises Board_init "c3d4"%string). reflexivity.
Defined.

(** ** Board._tiles *)

Lemma tile_key_found (i : Z) (char : piece) :
  TILES (tile_key i char) <> None.
Proof.
  unfold tile_key. destruct char; cbn; try discriminate.
  destruct ((i / 8 + i mod 8) mod 2 =? 0); discriminate.
Qed.

Lemma tiles_trace (l : list piece) :
  forall k,
    gen_for (enumerate_from k l) (fun '(i, char) =>
      match TILES (tile_key i char) with
      | Some g => gen_yield g
      | None => gen_raise KeyError
      end)
    = (map glyph_of (enumerate_from k l), None).
Proof.
  induction l as [|a l IH]; intros k; [reflexivity|].
  cbn [enumerate_from gen_for map]. rewrite IH.
  unfold glyph_of. cbn [fst snd].
  pose proof (tile_key_found k a) as H.
  destruct (TILES (tile_key k a)); [reflexivity|contradiction].
Qed.

Lemma glyph_of_inj (k : Z) (a b : piece) :
  glyph_of (k, a) = glyph_of (k, b) -> a = b.
Proof.
  unfold glyph_of, tile_key. cbn [fst snd].
  destruct ((k / 8 + k mod 8) mod 2 =? 0); destruct a, b; cbn;
    congruence.
Qed.

Lemma tiles_inj (l : list piece) :
  forall l' k,
    map glyph_of (enumerate_from k l) = map glyph_of (enumerate_from k l') ->
    l = l'.
Proof.
  induction l as [|a l IH]; intros [|b l'] k; cbn [enumerate_from map];
    try discriminate; [reflexivity|].
  intros [= Hh Ht]. apply glyph_of_inj in Hh. apply IH in Ht. congruence.
Qed.

Lemma length_enumerate_from {A : Type} (l : list A) :
  forall k, length (enumerate_from k l) = length l.
Proof.
  induction l as [|a l IH]; intros k; cbn [enumerate_from length];
    [reflexivity|now rewrite IH].
Qed.

(** X18. Board._tiles finds a tile for every cell of every board (no
    KeyError), yields one tile per cell, and loses nothing: two boards
    shown by the same tiles have the same cells. *)
Theorem tiles_lossless (self self' : Board) :
  ending (_tiles self) = None
  /\ length (yielded (_tiles self)) = length (_board self)
  /\ (yielded (_tiles self) = yielded (_tiles self') ->
      _board self = _board self').
Proof.
  unfold _tiles. rewrite !tiles_trace. cbn [ending yielded fst snd].
  split; [reflexivity|]. split.
  - now rewrite length_map, length_enumerate_from.
  - apply tiles_inj.
Qed.

Lemma tiles_lossless_witness :
  ending (_tiles Board_init) = None
  /\ length (yielded (_tiles Board_init)) = length (_board Board_init)
  /\ (yielded (_tiles Board_init) = yielded (_tiles king_position) ->
      _board Board_init = _board king_position).
Proof.
  apply (tiles_lossless Board_init king_position).
Defined.

(** ** legal_moves yields no text twice *)

Lemma nodup_z_spec (l : list Z) : nodup_z l = true -> NoDup l.
Proof.
  induction l as [|a l IH]; cbn [nodup_z]; [constructor|].
  rewrite andb_true_iff, negb_true_iff. intros [Hm Hr].
  constructor; [|now apply IH].
  intros Hin. apply mem_z_In in Hin. congruence.
Qed.

Lemma moves_ends_distinct (p : piece) mv k ends :
  _MOVES p = Some mv -> dict_get k mv = Some ends -> NoDup ends.
Proof.
  intros Hm Hg.
  assert (ends_distinct mv = true) as H
      by (destruct p; simpl in Hm; try discriminate Hm; injection Hm as <-; vm_compute;
          reflexivity).
  unfold ends_distinct in H. rewrite forallb_forall in H.
  specialize (H _ (dict_get_In _ _ _ Hg)). now apply nodup_z_spec.
Qed.

Lemma captures_landings_distinct (p : piece) cp k jumps_ :
  _CAPTURES p = Some cp -> dict_get k cp = Some jumps_ ->
  NoDup (map snd jumps_).
Proof.
  intros Hc Hg.
  assert (landings_distinct cp = true) as H
      by (destruct p; simpl in Hc; try discriminate Hc; injection Hc as <-; vm_compute;
          reflexivity).
  unfold landings_distinct in H. rewrite forallb_forall in H.
  specialize (H _ (dict_get_In _ _ _ Hg)). now apply nodup_z_spec.
Qed.

Lemma gen_for_NoDup {A B K : Type} (f : A -> K) (key : B -> K)
      (l : list A) (body : A -> gen B) :
  NoDup (map f l) ->
  (forall a, In a l -> NoDup (yielded (body a))) ->
  (forall a x, In a l -> In x (yielded (body a)) -> key x = f a) ->
  NoDup (yielded (gen_for l body)).
Proof.
  induction l as [|a l IH]; intros Hnd Hbody Hkey; cbn [gen_for];
    [constructor|].
  cbn [map] in Hnd. inversion Hnd as [|? ? Hnot Hnd']; subst.
  unfold gen_seq. destruct (ending (body a)) eqn:E.
  - apply Hbody. now left.
  - cbn [yielded fst]. apply NoDup_app.
    + apply Hbody. now left.
    + apply IH; auto.
      * intros a' Ha'. apply Hbody. now right.
      * intros a' x Ha'. apply Hkey. now right.
    + intros x Hx Hx'. apply gen_for_yielded in Hx' as (a' & Ha' & Hx').
      apply Hnot. apply in_map_iff. exists a'. split; [|exact Ha'].
      rewrite <- (Hkey a x (or_introl eq_refl) Hx).
      symmetry. apply Hkey; [now right|exact Hx'].
Qed.

Lemma NoDup_map_cons {A : Type} (a : A) (l : list (list A)) :
  NoDup l -> NoDup (map (cons a) l).
Proof.
  intros H. apply NoDup_map_NoDup_ForallPairs; [|exact H].
  intros x y _ _ E. now injection E.
Qed.

Lemma jump_helper_NoDup (self : Board) captures (fuel : nat) :
  (forall k jumps_, dict_get k captures = Some jumps_ ->
                    NoDup (map snd jumps_)) ->
  forall square captured,
    NoDup (yielded (jump_helper self captures fuel square captured)).
Proof.
  intros Hdistinct.
  induction fuel as [|fuel IH]; intros square captured; cbn [jump_helper];
    [constructor|].
  destruct (dict_get square captures) as [jumps_|] eqn:Hg; [|constructor].
  apply (gen_for_NoDup snd (fun c => nth 1 c 0)).
  - eapply Hdistinct; eauto.
  - intros [o e] _. destruct (valid_jump self captured (o, e)); [|constructor].
    destruct (stops_here self square);
      [constructor; [intros []|constructor]|].
    specialize (IH e (o :: captured)).
    destruct (jump_helper self captures fuel e (o :: captured))
      as [[|y ys] [ex|]].
    + constructor.
    + constructor; [intros []|constructor].
    + apply (NoDup_map_cons square (y :: ys)). exact IH.
    + apply (NoDup_map_cons square (y :: ys)). exact IH.
  - intros [o e] x _ Hx.
    destruct (valid_jump self captured (o, e)); [|destruct Hx].
    destruct (stops_here self square);
      [destruct Hx as [<-|[]]; reflexivity|].
    pose proof (jump_helper_sound self captures fuel e (o :: captured))
      as Hsound.
    destruct (jump_helper self captures fuel e (o :: captured))
      as [[|y ys] en].
    + destruct en; [destruct Hx|]. destruct Hx as [<-|[]]. reflexivity.
    + apply gen_map_yielded in Hx as (c & Hc & ->).
      destruct (chain_head _ _ _ _ _ (Hsound c Hc))
        as (? & ? & ? & ? & -> & _). reflexivity.
Qed.

Lemma NoDup_map_Some {A : Type} (l : list A) :
  NoDup l -> NoDup (map Some l).
Proof.
  intros H. apply NoDup_map_NoDup_ForallPairs; [|exact H].
  intros x y _ _ E. now injection E.
Qed.

Lemma squares_of_render (first e : Z) (rest : list Z) :
  Forall (fun i => on_board i = true) (first :: e :: rest) ->
  first_square (render (first :: e :: rest)) = Some first
  /\ second_square (render (first :: e :: rest)) = Some e.
Proof.
  intros H. unfold first_square, second_square.
  rewrite (parse_render _ H). split; reflexivity.
Qed.

Lemma capture_chain_on_board (self : Board) (square : Z) (c : list Z) :
  length (_board self) = 64%nat ->
  In square (_find_all_pieces self (PIECES (turn self))) ->
  In c (yielded (capture_chains self square)) ->
  Forall (fun i => on_board i = true) c
  /\ exists e rest, c = square :: e :: rest.
Proof.
  intros Hlen Hsq Hc.
  destruct (capture_chains_sound _ _ _ Hc) as (captures & Ht & Hok & Hch).
  apply find_all_pieces_spec in Hsq as [Hr _]. rewrite Hlen in Hr.
  split; [eapply chain_on_board; eauto|].
  destruct (chain_head _ _ _ _ _ Hch) as (? & ? & e & rest & -> & _).
  eauto.
Qed.

Lemma capture_chains_NoDup (self : Board) (square : Z) :
  NoDup (yielded (capture_chains self square)).
Proof.
  unfold capture_chains.
  destruct (_CAPTURES (cell (_board self) square)) as [captures|] eqn:Ht;
    [|constructor].
  apply jump_helper_NoDup. intros k jumps_.
  now apply (captures_landings_distinct _ _ _ _ Ht).
Qed.

Lemma jumps_NoDup (self : Board) :
  length (_board self) = 64%nat -> NoDup (yielded (jumps self)).
Proof.
  intros Hlen. unfold jumps.
  apply (gen_for_NoDup Some first_square).
  - apply NoDup_map_Some. apply pieces_from_NoDup.
  - intros square Hsq. unfold jumps_from, gen_map. cbn [yielded fst].
    apply NoDup_map_NoDup_ForallPairs; [|apply capture_chains_NoDup].
    intros c c' Hc Hc' E.
    destruct (capture_chain_on_board self square c Hlen Hsq Hc) as [Hon _].
    destruct (capture_chain_on_board self square c' Hlen Hsq Hc') as [Hon' _].
    pose proof (parse_render c Hon) as P. rewrite E in P.
    rewrite (parse_render c' Hon') in P. now injection P.
  - intros square x Hsq Hx. unfold jumps_from in Hx.
    apply gen_map_yielded in Hx as (c & Hc & ->).
    destruct (capture_chain_on_board self square c Hlen Hsq Hc)
      as [Hon (e & rest & ->)].
    now destruct (squares_of_render _ _ _ Hon).
Qed.

Lemma step_on_board (self : Board) (i : Z) tbl ends (e : Z) :
  length (_board self) = 64%nat ->
  In i (_find_all_pieces self (PIECES (turn self))) ->
  _MOVES (cell (_board self) i) = Some tbl ->
  dict_get i tbl = Some ends -> In e ends ->
  Forall (fun i => on_board i = true) [i; e].
Proof.
  intros Hlen Hi Ht Hg He.
  apply find_all_pieces_spec in Hi as [Hr _]. rewrite Hlen in Hr.
  destruct (moves_entry _ _ _ _ _ Ht Hg He) as (Ho & _).
  constructor; [now apply on_board_range|].
  constructor; [exact Ho|constructor].
Qed.

Lemma simple_moves_NoDup (self : Board) :
  length (_board self) = 64%nat -> NoDup (yielded (simple_moves self)).
Proof.
  intros Hlen. unfold simple_moves.
  apply (gen_for_NoDup Some first_square).
  - apply NoDup_map_Some. apply pieces_from_NoDup.
  - intros i Hi.
    destruct (_MOVES (cell (_board self) i)) as [tbl|] eqn:Ht; [|constructor].
    destruct (dict_get i tbl) as [ends|] eqn:Hg; [|constructor].
    apply (gen_for_NoDup Some second_square).
    + apply NoDup_map_Some. eapply moves_ends_distinct; eauto.
    + intros e _. destruct (piece_eqb (cell (_board self) e) Empty);
        [constructor; [intros []|constructor]|constructor].
    + intros e x He Hx.
      destruct (piece_eqb (cell (_board self) e) Empty); [|destruct Hx].
      destruct Hx as [<-|[]]. rewrite <- render_pair.
      now destruct (squares_of_render _ _ _
                      (step_on_board _ _ _ _ _ Hlen Hi Ht Hg He)).
  - intros i x Hi Hx.
    destruct (_MOVES (cell (_board self) i)) as [tbl|] eqn:Ht; [|destruct Hx].
    destruct (dict_get i tbl) as [ends|] eqn:Hg; [|destruct Hx].
    apply gen_for_yielded in Hx as (e & He & Hx).
    destruct (piece_eqb (cell (_board self) e) Empty); [|destruct Hx].
    destruct Hx as [<-|[]]. rewrite <- render_pair.
    now destruct (squares_of_render _ _ _
                    (step_on_board _ _ _ _ _ Hlen Hi Ht Hg He)).
Qed.

(** X19. On a board of 64 cells legal_moves yields no text twice. *)
Theorem legal_moves_NoDup (self : Board) :
  length (_board self) = 64%nat -> NoDup (yielded (legal_moves self)).
Proof.
  intros Hlen.
  destruct (legal_moves_cases self) as [E|[_ E]]; rewrite E.
  - now apply jumps_NoDup.
  - now apply simple_moves_NoDup.
Qed.

Lemma legal_moves_NoDup_witness :
  NoDup (yielded (legal_moves Board_init)).
Proof. apply (legal_moves_NoDup Board_init). reflexivity. Defined.

(** ** Men move forward *)

Lemma chain_pairs_prop (self : Board) captures (P : Z * Z -> Prop) :
  (forall k jumps_ o e,
      dict_get k captures = Some jumps_ -> In (o, e) jumps_ -> P (k, e)) ->
  forall square captured c,
    chain_from self captures square captured c ->
    Forall P (pairwise c).
Proof.
  intros HP.
  induction 1 as [sq capt jumps_ o e Hg Hi Hv Hs
                 |sq capt jumps_ o e Hg Hi Hv Hs Hn
                 |sq capt jumps_ o e c Hg Hi Hv Hs Hc IH].
  1,2: cbn [pairwise]; constructor; [eapply HP; eauto|constructor].
  destruct (chain_head _ _ _ _ _ Hc) as (jumps' & o' & e1 & rest & -> & _).
  change (pairwise (sq :: e :: e1 :: rest))
    with ((sq, e) :: pairwise (e :: e1 :: rest)).
  constructor; [eapply HP; eauto|exact IH].
Qed.

Lemma man_jumps_forward (colour : bool) cp k jumps_ o e :
  _CAPTURES (PIECES colour) = Some cp ->
  dict_get k cp = Some jumps_ -> In (o, e) jumps_ ->
  forward colour (k, e).
Proof.
  intros Hc Hg Hi.
  assert (forward_check colour cp = true) as H
      by (destruct colour; simpl in Hc; injection Hc as <-; vm_compute;
          reflexivity).
  unfold forward_check in H. rewrite forallb_forall in H.
  specialize (H _ (dict_get_In _ _ _ Hg)). cbn beta iota in H.
  rewrite forallb_forall in H. specialize (H _ Hi). cbn beta iota in H.
  apply Z.eqb_eq in H. unfold forward. cbn [fst snd].
  destruct colour; lia.
Qed.

Lemma man_steps_forward (colour : bool) mv k ends e :
  _MOVES (PIECES colour) = Some mv ->
  dict_get k mv = Some ends -> In e ends ->
  forward colour (k, e).
Proof.
  intros Hm Hg Hi.
  pose proof (all_moves_shape _ _ Hm) as H.
  unfold moves_shape_check in H. rewrite forallb_forall in H.
  specialize (H _ (dict_get_In _ _ _ Hg)). cbn beta iota in H.
  apply andb_true_iff in H as [H _]. rewrite forallb_forall in H.
  specialize (H _ Hi). unfold step_shape in H.
  rewrite !andb_true_iff in H. destruct H as [_ H].
  unfold forward. cbn [fst snd].
  destruct colour; cbn [PIECES dir_ok] in H; apply Z.eqb_eq in H; lia.
Qed.

(** X20. A man never moves backwards: in a text that legal_moves yields on
    a board of 64 cells for a man of the side to move, every square is on
    a row nearer the far row than the square before it. *)
Theorem men_move_forward (self : Board) (mv : string) :
  length (_board self) = 64%nat ->
  In mv (yielded (legal_moves self)) ->
  exists first rest,
    parse_squares mv = Some (first :: rest)
    /\ (cell (_board self) first = PIECES (turn self) ->
        Forall (forward (turn self)) (pairwise (first :: rest))).
Proof.
  intros Hlen Hin.
  destruct (legal_moves_cases self) as [E|[_ E]]; rewrite E in Hin.
  - apply jumps_yielded in Hin as (square & c & Hsq & Hc & ->).
    destruct (capture_chain_on_board self square c Hlen Hsq Hc)
      as [Hon (e & rest & ->)].
    exists square, (e :: rest). split; [now apply parse_render|].
    intros Hman.
    destruct (capture_chains_sound _ _ _ Hc) as (captures & Ht & Hok & Hch).
    rewrite Hman in Ht.
    eapply chain_pairs_prop; [|exact Hch].
    intros k jumps_ o e' Hg Hi. eapply man_jumps_forward; eauto.
  - apply simple_moves_yielded in Hin
      as (i & tbl & ends & e & Hi & Ht & Hg & He & _ & ->).
    exists i, [e]. split.
    + rewrite <- render_pair. apply parse_render.
      eapply step_on_board; eauto.
    + intros Hman. rewrite Hman in Ht. cbn [pairwise].
      constructor; [|constructor]. eapply man_steps_forward; eauto.
Qed.

Lemma men_move_forward_witness :
  exists first rest,
    parse_squares "b2d4f6" = Some (first :: rest)
    /\ (cell (_board double_jump_position) first = PIECES WHITE ->
        Forall (forward WHITE) (pairwise (first :: rest))).
Proof.
  apply (men_move_forward double_jump_position "b2d4f6"%string).
  - reflexivity.
  - vm_compute. left. reflexivity.
Defined.

(** ** When legal_moves raises *)

Lemma all_captures_keys_check (p : piece) cp :
  _CAPTURES p = Some cp -> keys_check cp = true.
Proof.
  destruct p; simpl; intros [= <-]; vm_compute; reflexivity.
Qed.

Lemma all_moves_keys_check (p : piece) mv :
  _MOVES p = Some mv -> keys_check mv = true.
Proof.
  destruct p; simpl; intros [= <-]; vm_compute; reflexivity.
Qed.

Lemma jumps_from_ending (self : Board) (square : Z) :
  length (_board self) = 64%nat ->
  In square (_find_all_pieces self (PIECES (turn self))) ->
  (ending (jumps_from self square) = None <-> dark square = true).
Proof.
  intros Hlen Hsq.
  apply find_all_pieces_spec in Hsq as [Hr Hp]. rewrite Hlen in Hr.
  destruct (mover_has_tables _ _ Hp) as [[cp Hcp] _].
  pose proof (keys_check_spec cp square (all_captures_keys_check _ _ Hcp))
    as Hkeys.
  unfold jumps_from, gen_map, capture_chains. cbn [ending snd].
  rewrite Hcp. split.
  - intros Hend. destruct (has_key square cp) eqn:Hk.
    + now apply Hkeys.
    + exfalso. unfold has_key in Hk. unfold depth_bound in Hend.
      cbn [jump_helper] in Hend.
      destruct (dict_get square cp); discriminate.
  - intros Hd. apply jump_helper_total.
    + eapply all_captures_ok; eauto.
    + apply Hkeys. split; [lia|exact Hd].
Qed.

Lemma simple_moves_ending_dark (self : Board) :
  length (_board self) = 64%nat ->
  (forall i, In i (_find_all_pieces self (PIECES (turn self))) ->
             dark i = true) ->
  ending (simple_moves self) = None.
Proof.
  intros Hlen Hdark. unfold simple_moves. apply gen_for_ending. intros i Hi.
  pose proof (Hdark i Hi) as Hd.
  apply find_all_pieces_spec in Hi as [Hr Hp]. rewrite Hlen in Hr.
  destruct (mover_has_tables _ _ Hp) as [_ [mv Hmv]]. rewrite Hmv.
  pose proof (keys_check_spec mv i (all_moves_keys_check _ _ Hmv)) as Hkeys.
  assert (has_key i mv = true) as Hk by (apply Hkeys; split; [lia|exact Hd]).
  unfold has_key in Hk.
  destruct (dict_get i mv) as [ends|]; [|discriminate].
  apply gen_for_ending. intros e _.
  destruct (piece_eqb (cell (_board self) e) Empty); reflexivity.
Qed.

(** X21. On a board of 64 cells legal_moves runs to its end without an
    exception exactly when every piece of the side to move stands on a
    dark square; the only exception it ever raises is KeyError. *)
Theorem legal_moves_raises_iff (self : Board) :
  length (_board self) = 64%nat ->
  (ending (legal_moves self) = None
   <-> forall i, In i (_find_all_pieces self (PIECES (turn self))) ->
                 dark i = true)
  /\ (forall e, ending (legal_moves self) = Some e -> e = KeyError).
Proof.
  intros Hlen. split; [|apply legal_moves_raises]. split.
  - intros Hend i Hi.
    assert (ending (jumps self) = None) as Hj.
    { destruct (legal_moves_cases self) as [E|[E _]];
        [now rewrite <- E|now rewrite E]. }
    unfold jumps in Hj.
    apply (jumps_from_ending self i Hlen Hi).
    exact (gen_for_ending_inv _ _ Hj i Hi).
  - intros Hdark.
    assert (ending (jumps self) = None) as Hj.
    { unfold jumps. apply gen_for_ending. intros i Hi.
      apply (jumps_from_ending self i Hlen Hi). now apply Hdark. }
    destruct (legal_moves_cases self) as [E|[_ E]]; rewrite E;
      [exact Hj|now apply simple_moves_ending_dark].
Qed.

Lemma legal_moves_raises_iff_witness :
  (ending (legal_moves Board_init) = None
   <-> forall i, In i (_find_all_pieces Board_init (PIECES (turn Board_init)))
                 -> dark i = true)
  /\ (forall e, ending (legal_moves Board_init) = Some e -> e = KeyError).
Proof. apply (legal_moves_raises_iff Board_init). reflexivity. Defined.

(** ** is_game_over and move *)

(** X22. On a well-formed board is_game_over and Board.move agree: when
    is_game_over returns True every text is rejected with the illegal-move
    error, and when it returns False some text is applied without
    error. *)
Theorem game_over_blocks_moves (self : Board) :
  wf_board self ->
  (is_game_over self = inl true ->
   forall mv, snd (move self mv) = Some IllegalMove)
  /\ (is_game_over self = inl false ->
      exists mv, snd (move self mv) = None).
Proof.
  intros Hwf. pose proof (legal_moves_ending self Hwf) as Hend.
  unfold is_game_over. split.
  - intros Hover mv. unfold move, gen_contains.
    destruct (legal_moves self) as [[|y ys] [e|]]; try discriminate.
    reflexivity.
  - intros Hnot.
    destruct (legal_moves self) as [[|y ys] en] eqn:E; [destruct en|];
      try discriminate.
    exists y. unfold move.
    assert (In y (yielded (legal_moves self))) as Hin
        by (rewrite E; now left).
    rewrite <- E in Hend.
    destruct (gen_contains_spec y _ Hend) as [[Hc _]|[_ Hn]];
      [|contradiction].
    rewrite Hc.
    destruct (legal_move_parses self y (proj1 Hwf) Hin)
      as (squares & -> & Hsq & _).
    now apply apply_legal_squares.
Qed.

Lemma game_over_blocks_moves_witness :
  (is_game_over Board_init = inl true ->
   forall mv, snd (move Board_init mv) = Some IllegalMove)
  /\ (is_game_over Board_init = inl false ->
      exists mv, snd (move Board_init mv) = None).
Proof. apply (game_over_blocks_moves Board_init). split; reflexivity. Defined.

Lemma table_keys_witness :
  (has_key 42 (wh_dict _moves) = true <-> 0 <= 42 < 72 /\ dark 42 = true)
  /\ (has_key 42 (wh_dict _captures) = true
      <-> 0 <= 42 < 72 /\ dark 42 = true).
Proof. exact (table_keys WH_PIECE 42). Defined.
